(** * rediswatcher: a shallow embedding of watcher.go and options.go

    The Go package publishes policy-change notices on a Redis channel and
    runs one goroutine that hands every received payload to a callback.
    The embedding keeps the Go names.  Network results (ping, publish and
    close errors), the CPU count and the generated UUID are inputs, gathered
    in [env]; everything the program does to the outside is appended to a
    trace of [event]s.  [NewPublishWatcher] and [unsubscribe], which no
    statement below is about, are left out. *)

From Stdlib Require Import ZArith Ascii DecimalString Lia.
From stdpp Require Import base option list strings sorting gmap.

Set Warnings "-register-all".
Local Open Scope Z_scope.
Local Open Scope string_scope.
Local Open Scope list_scope.

(** ** Go values *)

(** A Go slice is [nil] or a sequence; the two differ once marshalled. *)
Definition slice (A : Type) : Type := option (list A).

Definition elems {A} (s : slice A) : list A := default [] s.

(** The slice a variadic parameter receives: [nil] when no argument is given. *)
Definition variadic {A} (args : list A) : slice A :=
  match args with
  | [] => None
  | _ => Some args
  end.

(** [error] values; [None : option error] is Go's [nil] error. *)
Record error : Type := errors_New { Error : string }.

(** Go's [int] and [uint], taken at 64 bits. *)
Definition int_of_Z (z : Z) : Z := (z + 2 ^ 63) mod 2 ^ 64 - 2 ^ 63.
Definition uint_of_Z (z : Z) : Z := z mod 2 ^ 64.

(** [fmt.Sprintf("%d", n)] *)
Definition itoa (n : Z) : string := NilZero.string_of_int (Z.to_int n).

(** [strings.Join] *)
Fixpoint strings_Join (elems : list string) (sep : string) : string :=
  match elems with
  | [] => ""
  | [x] => x
  | x :: rest => x +:+ sep +:+ strings_Join rest sep
  end.

(** ** The message codec (encoding/json on [MSG]) *)

(** [json.Marshal] and [json.Unmarshal] belong to Go's standard library.
    They are modelled on JSON documents rather than on their text: a
    document is a JSON text as a reader takes it in.  An object is a finite
    map from member names to documents (of a name written twice the reader
    keeps the last occurrence), and the documents are the ones the envelopes
    of this package are made of (null, strings, arrays and objects). *)
Inductive json : Type :=
| JNull
| JString (s : string)
| JArray (l : list json)
| JObject (m : gmap string json).

(** Modelled from the spec: casbin's [model.Model] is declared outside this
    package; the snapshot carried by UpdateForSavePolicy is taken as
    "sections -> key -> rule list", every rule a list of field values. *)
Definition Model : Type := gmap string (gmap string (slice (slice string))).

(** The dynamic values held by [Params interface{}]: what the publishers
    store there (a string, a []string, a model.Model) and what
    [json.Unmarshal] stores there ([]interface{}, map[string]interface{},
    string or nil).  No code of the package stores a pointer there, and the
    type has none: into a pointer found in the target [json.Unmarshal]
    would decode through it, so [UnmarshalBinary] below is the method on
    targets of this type only. *)
Inductive any : Type :=
| Nil
| GoString (s : string)
| GoStrings (l : slice string)
| GoModel (m : Model)
| GoIfaces (l : list any)
| GoMap (m : gmap string any).

(** *** Strings: coercion to valid UTF-8

    A Go string is any sequence of bytes.  [json.Marshal] writes strings and
    map keys "coerced to valid UTF-8, replacing invalid bytes with the
    Unicode replacement rune": its string writer walks the bytes with
    [utf8.DecodeRuneInString] and writes U+FFFD for every byte on which
    that returns (RuneError, 1). *)

(** [utf8.first] with [utf8.acceptRanges]: for a leading byte, the size of
    the encoding it starts and the range its second byte has to lie in;
    [None] for a byte that starts no encoding. *)
Definition utf8_first (c : ascii) : option (nat * (N * N)) :=
  let b := N_of_ascii c in
  if (b <? 0x80)%N then Some (1%nat, (0x00, 0x7F)%N)
  else if (b <? 0xC2)%N then None
  else if (b <? 0xE0)%N then Some (2%nat, (0x80, 0xBF)%N)
  else if (b =? 0xE0)%N then Some (3%nat, (0xA0, 0xBF)%N)
  else if (b =? 0xED)%N then Some (3%nat, (0x80, 0x9F)%N)
  else if (b <? 0xF0)%N then Some (3%nat, (0x80, 0xBF)%N)
  else if (b =? 0xF0)%N then Some (4%nat, (0x90, 0xBF)%N)
  else if (b <? 0xF4)%N then Some (4%nat, (0x80, 0xBF)%N)
  else if (b =? 0xF4)%N then Some (4%nat, (0x80, 0x8F)%N)
  else None.

Definition in_range (lo hi : N) (c : ascii) : bool :=
  (lo <=? N_of_ascii c)%N && (N_of_ascii c <=? hi)%N.

(** [utf8.DecodeRuneInString] on a string that starts with the byte [c]:
    [Some size] for an encoding of [size] bytes, [None] for the result
    (RuneError, 1) on an encoding that is invalid or cut short. *)
Definition DecodeRuneInString (c : ascii) (rest : string) : option nat :=
  match utf8_first c with
  | None => None
  | Some (sz, (lo, hi)) =>
      match sz, rest with
      | 1%nat, _ => Some 1%nat
      | 2%nat, String c1 _ => if in_range lo hi c1 then Some 2%nat else None
      | 3%nat, String c1 (String c2 _) =>
          if in_range lo hi c1 && in_range 0x80 0xBF c2 then Some 3%nat else None
      | 4%nat, String c1 (String c2 (String c3 _)) =>
          if in_range lo hi c1 && in_range 0x80 0xBF c2 && in_range 0x80 0xBF c3
          then Some 4%nat else None
      | _, _ => None
      end
  end.

(** The string a reader finds where [json.Marshal] wrote the Go string [s].
    [owed] counts the bytes still to copy of the encoding in progress; an
    invalid byte becomes the three bytes EF BF BD of U+FFFD. *)
Fixpoint coerce_from (owed : nat) (s : string) : string :=
  match s with
  | "" => ""
  | String c rest =>
      match owed with
      | S k => String c (coerce_from k rest)
      | O =>
          match DecodeRuneInString c rest with
          | Some size => String c (coerce_from (size - 1) rest)
          | None =>
              String "239"%char (String "191"%char (String "189"%char (coerce_from 0 rest)))
          end
      end
  end.

Definition coerce_utf8 (s : string) : string := coerce_from 0 s.

Definition marshal_string (s : string) : json := JString (coerce_utf8 s).

(** [utf8.ValidString]: every byte belongs to a well-formed encoding. *)
Fixpoint ValidString_from (owed : nat) (s : string) : bool :=
  match s with
  | "" => bool_decide (owed = 0%nat)
  | String c rest =>
      match owed with
      | S k => ValidString_from k rest
      | O =>
          match DecodeRuneInString c rest with
          | Some size => ValidString_from (size - 1) rest
          | None => false
          end
      end
  end.

Definition ValidString (s : string) : bool := ValidString_from 0 s.

(** *** Maps

    [json.Marshal] writes the members of a map sorted by key (bytewise,
    [strings.Compare]), each key coerced like a string.  Keys that differ
    only in invalid bytes are written under the same name; a reader keeps
    the last one written. *)
Definition key_le (a b : string) : Prop := String.leb a b = true.

#[global] Instance key_le_dec : RelDecision key_le := λ a b, decide (String.leb a b = true).

Definition sorted_keys {A} (m : gmap string A) : list string :=
  merge_sort key_le (elements (dom m)).

Definition write_member {A} (m : gmap string A) (acc : gmap string A) (k : string) :
    gmap string A :=
  match m !! k with
  | Some v => <[coerce_utf8 k := v]> acc
  | None => acc
  end.

Definition encode_map {A} (m : gmap string A) : gmap string A :=
  foldl (write_member m) ∅ (sorted_keys m).

(** A nil slice is marshalled as null, any other slice as an array. *)
Definition marshal_slice {A} (f : A → json) (s : slice A) : json :=
  match s with
  | None => JNull
  | Some l => JArray (f <$> l)
  end.

Definition marshal_Model (m : Model) : json :=
  JObject (encode_map
    ((λ sec, JObject (encode_map (marshal_slice (marshal_slice marshal_string) <$> sec)))
       <$> m)).

Fixpoint marshal_any (a : any) : json :=
  match a with
  | Nil => JNull
  | GoString s => marshal_string s
  | GoStrings l => marshal_slice marshal_string l
  | GoModel m => marshal_Model m
  | GoIfaces l => JArray (marshal_any <$> l)
  | GoMap m => JObject (encode_map (marshal_any <$> m))
  end.

(** What [json.Unmarshal] stores into an [interface{}]. *)
Fixpoint unmarshal_any (j : json) : any :=
  match j with
  | JNull => Nil
  | JString s => GoString s
  | JArray l => GoIfaces (unmarshal_any <$> l)
  | JObject m => GoMap (unmarshal_any <$> m)
  end.

Record MSG : Type := mkMSG {
  Method : string;
  ID : string;
  Sec : string;
  Ptype : string;
  Params : any
}.

(** [func (m *MSG) MarshalBinary() ([]byte, error)]: [json.Marshal(m)].
    The four string fields are written coerced to valid UTF-8, like every
    string.  No value of [any] makes the marshaller fail, so the error is
    always nil and only the document is returned. *)
Definition MarshalBinary (m : MSG) : json :=
  JObject (<["Method" := marshal_string (Method m)]>
          (<["ID" := marshal_string (ID m)]>
          (<["Sec" := marshal_string (Sec m)]>
          (<["Ptype" := marshal_string (Ptype m)]>
          (<["Params" := marshal_any (Params m)]> ∅))))).

(** Decoding one member into a [string] field: a string is stored, null and
    a missing member leave the field alone, anything else is a type error
    (the field is left alone and decoding goes on).  Members are looked up
    by the name [json.Marshal] writes for the field; encoding/json would
    also take a member whose name differs from it in case only, which no
    document written by this package has. *)
Definition unmarshal_string_field (name : string) (members : gmap string json)
    (old : string) : string * option error :=
  match members !! name with
  | None | Some JNull => (old, None)
  | Some (JString s) => (s, None)
  | Some (JArray _) => (old, Some (errors_New ("json: cannot unmarshal array into Go struct field MSG." +:+ name +:+ " of type string")))
  | Some (JObject _) => (old, Some (errors_New ("json: cannot unmarshal object into Go struct field MSG." +:+ name +:+ " of type string")))
  end.

Definition unmarshal_iface_field (name : string) (members : gmap string json)
    (old : any) : any :=
  match members !! name with
  | None => old
  | Some j => unmarshal_any j
  end.

Definition first_error (a b : option error) : option error :=
  match a with
  | Some e => Some e
  | None => b
  end.

(** [func (m *MSG) UnmarshalBinary(data []byte) error]: [json.Unmarshal(data, m)];
    the result is the updated [*m] and the error. *)
Definition UnmarshalBinary (data : json) (m : MSG) : MSG * option error :=
  match data with
  | JNull => (m, None)
  | JObject members =>
      let '(method, e1) := unmarshal_string_field "Method" members (Method m) in
      let '(id, e2) := unmarshal_string_field "ID" members (ID m) in
      let '(sec, e3) := unmarshal_string_field "Sec" members (Sec m) in
      let '(ptype, e4) := unmarshal_string_field "Ptype" members (Ptype m) in
      let params := unmarshal_iface_field "Params" members (Params m) in
      (mkMSG method id sec ptype params,
       first_error e1 (first_error e2 (first_error e3 e4)))
  | JString _ => (m, Some (errors_New "json: cannot unmarshal string into Go value of type rediswatcher.MSG"))
  | JArray _ => (m, Some (errors_New "json: cannot unmarshal array into Go value of type rediswatcher.MSG"))
  end.

(** Decoding into a fresh [&MSG{}]. *)
Definition zeroMSG : MSG := mkMSG "" "" "" "" Nil.

Definition decode (data : json) : MSG * option error := UnmarshalBinary data zeroMSG.

(** ** Options and clients *)

(** [func(string)] values: a callback supplied by the caller, or the closure
    [initConfig] installs when none was given. *)
Inductive func : Type :=
| UserFunc (id : nat)
| CallbackNotSet.

(** [rds.Options], the fields this package fills in.  A field that a
    composite literal leaves out is zero. *)
Record rds_Options : Type := mkOptions {
  Addr : string;
  Password : string;
  PoolSize : Z
}.

Record WatcherOptions : Type := mkWatcherOptions {
  Options : rds_Options;
  SubClient : option nat;              (* *rds.ClusterClient, None = nil *)
  PubClient : option nat;
  Channel : string;
  IgnoreSelf : bool;
  LocalID : string;
  Addresses : list string;
  Namespace : string;
  MaxConnections : Z;                  (* uint *)
  UseSentinel : bool;
  MasterName : string;
  OptionalUpdateCallback : option func
}.

Definition set_LocalID (v : string) (o : WatcherOptions) : WatcherOptions :=
  mkWatcherOptions (Options o) (SubClient o) (PubClient o) (Channel o) (IgnoreSelf o)
    v (Addresses o) (Namespace o) (MaxConnections o) (UseSentinel o) (MasterName o)
    (OptionalUpdateCallback o).

Definition set_Channel (v : string) (o : WatcherOptions) : WatcherOptions :=
  mkWatcherOptions (Options o) (SubClient o) (PubClient o) v (IgnoreSelf o)
    (LocalID o) (Addresses o) (Namespace o) (MaxConnections o) (UseSentinel o)
    (MasterName o) (OptionalUpdateCallback o).

Definition set_MaxConnections (v : Z) (o : WatcherOptions) : WatcherOptions :=
  mkWatcherOptions (Options o) (SubClient o) (PubClient o) (Channel o) (IgnoreSelf o)
    (LocalID o) (Addresses o) (Namespace o) v (UseSentinel o) (MasterName o)
    (OptionalUpdateCallback o).

(** The values a [RedisClient] field holds: the three constructors of the
    redis library with the options literal they are given, or a cluster
    client handed in through the options. *)
Inductive client : Type :=
| NewClient (opt : rds_Options)
| NewClusterClient (Addrs : list string) (Password : string) (PoolSize : Z)
| NewFailoverClient (MasterName : string) (SentinelAddrs : list string) (PoolSize : Z)
| ClusterClientPtr (p : nat).

(** Which field of the watcher a client sits in. *)
Inductive role : Type := RoleSub | RolePub.

(** A message payload as the bus carries it: literal text, or the text of a
    JSON document. *)
Inductive payload : Type :=
| Text (s : string)
| Encoded (j : json).

(** ** The outside world *)

Record env : Type := mkEnv {
  NumCPU : Z;                          (* runtime.NumCPU() *)
  uuid_New : string;                   (* uuid.New().String() *)
  net : nat → option error             (* the error of the network call made
                                          when the trace has that many events *)
}.

Inductive event : Type :=
| EvLock                               (* w.l.Lock() *)
| EvUnlock                             (* w.l.Unlock() *)
| EvLog (line : string)                (* log.Println *)
| EvNew (r : role) (c : client)        (* a client constructor of the redis library *)
| EvPing (r : role) (c : client)
| EvSubscribe (c : client) (channel : string)
| EvPublish (c : client) (channel : string) (message : payload)
| EvCloseSignal                        (* close(w.close) *)
| EvRecv (m : payload)                 (* [range ch] yields m *)
| EvCall (f : func) (data : payload)   (* w.callback(data) *)
| EvPubSubClose (c : client) (channel : string)   (* sub.Close() *)
| EvClientClose (r : role) (c : client)
| EvPanic (msg : string).

(** ** The watcher and its goroutine *)

(** The struct without [ctx], which is set once and never read. *)
Record Watcher : Type := mkWatcher {
  l : bool;                            (* sync.Mutex, true while held *)
  subClient : client;
  pubClient : client;
  options : WatcherOptions;
  close : bool;                        (* chan struct{}, true once closed *)
  callback : option func               (* None = nil *)
}.

(** Where the goroutine started by [subscribe] stands. *)
Inductive pc : Type :=
| NotStarted
| Receiving                            (* waiting in [for msg := range ch] *)
| Selecting (msg : payload)            (* msg received, the select comes next *)
| Calling (msg : payload)              (* select took default, the call comes next *)
| Exited.                              (* returned or panicked; deferred closes done *)

(** The process: the watcher, the subscription [sub] opened by [subscribe]
    (the client it was opened on and its channel name), the Go channel
    [ch := sub.Channel()], the goroutine and the trace. *)
Record proc : Type := mkProc {
  w : Watcher;
  sub : option (client * string);
  ch : list payload;                   (* delivered, not yet received *)
  loop : pc;
  fatal : option string;               (* a panic nobody recovered *)
  trace : list event                   (* oldest first *)
}.

Definition set_w (f : Watcher → Watcher) (p : proc) : proc :=
  mkProc (f (w p)) (sub p) (ch p) (loop p) (fatal p) (trace p).
Definition set_sub (v : option (client * string)) (p : proc) : proc :=
  mkProc (w p) v (ch p) (loop p) (fatal p) (trace p).
Definition set_ch (v : list payload) (p : proc) : proc :=
  mkProc (w p) (sub p) v (loop p) (fatal p) (trace p).
Definition set_loop (v : pc) (p : proc) : proc :=
  mkProc (w p) (sub p) (ch p) v (fatal p) (trace p).
Definition set_fatal (v : option string) (p : proc) : proc :=
  mkProc (w p) (sub p) (ch p) (loop p) v (trace p).
Definition emit (ev : event) (p : proc) : proc :=
  mkProc (w p) (sub p) (ch p) (loop p) (fatal p) (trace p ++ [ev]).

Definition set_l (v : bool) (x : Watcher) : Watcher :=
  mkWatcher v (subClient x) (pubClient x) (options x) (close x) (callback x).
Definition set_subClient (v : client) (x : Watcher) : Watcher :=
  mkWatcher (l x) v (pubClient x) (options x) (close x) (callback x).
Definition set_pubClient (v : client) (x : Watcher) : Watcher :=
  mkWatcher (l x) (subClient x) v (options x) (close x) (callback x).
Definition set_options (v : WatcherOptions) (x : Watcher) : Watcher :=
  mkWatcher (l x) (subClient x) (pubClient x) v (close x) (callback x).
Definition set_close (v : bool) (x : Watcher) : Watcher :=
  mkWatcher (l x) (subClient x) (pubClient x) (options x) v (callback x).
Definition set_callback (v : option func) (x : Watcher) : Watcher :=
  mkWatcher (l x) (subClient x) (pubClient x) (options x) (close x) v.

(** ** Calls: a state monad over [proc] with panics and blocking *)

Inductive outcome (A : Type) : Type :=
| Ret (a : A)
| Panic (msg : string)
| Blocked.
Arguments Ret {A} a.
Arguments Panic {A} msg.
Arguments Blocked {A}.

Definition M (A : Type) : Type := proc → outcome A * proc.

#[global] Instance M_ret : MRet M := λ A a p, (Ret a, p).

#[global] Instance M_bind : MBind M := λ A B k m p,
  match m p with
  | (Ret a, p') => k a p'
  | (Panic msg, p') => (Panic msg, p')
  | (Blocked, p') => (Blocked, p')
  end.

(** [defer d] in front of [body]: [d] runs when [body] returns and also when
    it panics; the outcome stays that of [body] unless [d] itself fails. *)
Definition defer {A} (d : M unit) (body : M A) : M A :=
  λ p, match body p with
       | (Blocked, p') => (Blocked, p')
       | (r, p') =>
           match d p' with
           | (Ret _, p'') => (r, p'')
           | (Panic msg, p'') => (Panic msg, p'')
           | (Blocked, p'') => (Blocked, p'')
           end
       end.

Definition get : M proc := λ p, (Ret p, p).
Definition tell (ev : event) : M unit := λ p, (Ret (), emit ev p).
Definition modify (f : proc → proc) : M unit := λ p, (Ret (), f p).
Definition update (f : Watcher → Watcher) : M unit := modify (set_w f).
Definition panic {A} (msg : string) : M A := λ p, (Panic msg, p).
Definition Println (line : string) : M unit := tell (EvLog line).

(** [w.l.Lock()] waits while the mutex is held. *)
Definition Lock : M unit :=
  λ p, if l (w p) then (Blocked, p) else (Ret (), emit EvLock (set_w (set_l true) p)).

Definition Unlock : M unit :=
  λ p, if l (w p) then (Ret (), emit EvUnlock (set_w (set_l false) p))
       else (Panic "sync: unlock of unlocked mutex", p).

(** ** The program *)

Section Program.

Variable e : env.

(** A call that goes to the network: it is traced and its error is the one
    the environment holds for this moment. *)
Definition netcall (ev : event) : M (option error) :=
  λ p, (Ret (net e (length (trace p))), emit ev p).

Definition Publish (c : client) (channel : string) (message : payload) : M (option error) :=
  netcall (EvPublish c channel message).

Definition log_err (err : option error) : M unit :=
  match err with
  | Some x => Println (Error x)
  | None => mret ()
  end.

(** options.go, [func initConfig(option *WatcherOptions)] *)
Definition initConfig (opt : WatcherOptions) : WatcherOptions :=
  let opt := if bool_decide (LocalID opt = "") then set_LocalID (uuid_New e) opt else opt in
  let opt := if bool_decide (Channel opt = "") then set_Channel "/casbin" opt else opt in
  opt.

(** [func (w *Watcher) SetUpdateCallback(callback func(string)) error] *)
Definition SetUpdateCallback (cb : option func) : M (option error) :=
  Lock;;
  update (set_callback cb);;
  Unlock;;
  mret None.

(** [func (w *Watcher) initConfig(option WatcherOptions) error] *)
Definition Watcher_initConfig (opt : WatcherOptions) : M (option error) :=
  err ← match OptionalUpdateCallback opt with
        | Some f => SetUpdateCallback (Some f)
        | None => SetUpdateCallback (Some CallbackNotSet)
        end;
  match err with
  | Some x => mret (Some x)
  | None =>
      match SubClient opt with
      | Some c => update (set_subClient (ClusterClientPtr c))
      | None => mret ()
      end;;
      match PubClient opt with
      | Some c => update (set_pubClient (ClusterClientPtr c))
      | None => mret ()
      end;;
      mret None
  end.

(** [func (w *Watcher) subscribe()]: it returns once the goroutine has taken
    the Go channel of the subscription and stands at the [range]. *)
Definition subscribe : M unit :=
  Lock;;
  p ← get;
  let c := subClient (w p) in
  let channel := Channel (options (w p)) in
  tell (EvSubscribe c channel);;
  Unlock;;
  modify (λ p, set_loop Receiving (set_sub (Some (c, channel)) p)).

Definition Ping (r : role) : M (option error) :=
  p ← get;
  netcall (EvPing r (match r with RoleSub => subClient (w p) | RolePub => pubClient (w p) end)).

Definition zeroOptions : WatcherOptions :=
  mkWatcherOptions (mkOptions "" "" 0) None None "" false "" [] "" 0 false "" None.

(** The part of [NewWatcher] that follows the composite literal. *)
Definition NewWatcher_finish (opt : WatcherOptions) : M (option error) :=
  _ ← Watcher_initConfig opt;
  err ← Ping RoleSub;
  match err with
  | Some x => mret (Some x)
  | None =>
      err ← Ping RolePub;
      match err with
      | Some x => mret (Some x)
      | None =>
          update (set_options opt);;
          subscribe;;
          mret None
      end
  end.

(** [func NewWatcher(option WatcherOptions) (persist.Watcher, error)]: the
    value returned and the events of the call.  [a0] is [option.Addresses[0]]. *)
Definition NewWatcher (opt : WatcherOptions) : outcome (proc + error) * list event :=
  match Addresses opt with
  | [] => (Ret (inr (errors_New "redis: missing redis node address(es)")), [])
  | a0 :: _ =>
  if bool_decide (a0 = "") then
    (Ret (inr (errors_New "redis: missing redis node address(es)")), [])
  else if bool_decide (Namespace opt = "") then
    (Ret (inr (errors_New "redis: missing key namespace")), [])
  else if UseSentinel opt && bool_decide (MasterName opt = "") then
    (Ret (inr (errors_New "redis: missing MasterName for Sentinel setup")), [])
  else
    let opt :=
      if bool_decide (MaxConnections opt = 0)
      then set_MaxConnections (uint_of_Z (int_of_Z (10 * NumCPU e))) opt
      else opt in
    let opt := initConfig opt in
    let clients : (client * client) + error :=
      if UseSentinel opt then
        if bool_decide (MasterName opt = "") then
          inr (errors_New "redis: missing MasterName for Sentinel setup")
        else
          inl (NewFailoverClient (MasterName opt) (Addresses opt) (int_of_Z (MaxConnections opt)),
               NewFailoverClient (MasterName opt) (Addresses opt) (int_of_Z (MaxConnections opt)))
      else if bool_decide (1 < length (Addresses opt))%nat then
        inl (NewClusterClient (Addresses opt) (Password (Options opt)) (int_of_Z (MaxConnections opt)),
             NewClusterClient (Addresses opt) (Password (Options opt)) (int_of_Z (MaxConnections opt)))
      else
        inl (NewClient (mkOptions a0 (Password (Options opt)) 0),
             NewClient (mkOptions a0 (Password (Options opt)) 0)) in
    match clients with
    | inr err => (Ret (inr err), [])
    | inl (sc, pc) =>
        let p0 := mkProc (mkWatcher false sc pc zeroOptions false None) None [] NotStarted None
                    [EvNew RoleSub sc; EvNew RolePub pc] in
        match NewWatcher_finish opt p0 with
        | (Ret None, p) => (Ret (inl p), trace p)
        | (Ret (Some err), p) => (Ret (inr err), trace p)
        | (Panic msg, p) => (Panic msg, trace p)
        | (Blocked, p) => (Blocked, trace p)
        end
    end
  end.

(** [func (w *Watcher) logRecord(f func() error) error] *)
Definition logRecord (f : M (option error)) : M (option error) :=
  err ← f;
  log_err err;;
  mret err.

(** What every [Update...] method does with its envelope. *)
Definition publish_MSG (method sec ptype : string) (params : any) : M (option error) :=
  logRecord (
    Lock;;
    defer Unlock (
      p ← get;
      Publish (pubClient (w p)) (Channel (options (w p)))
        (Encoded (MarshalBinary (mkMSG method (LocalID (options (w p))) sec ptype params))))).

(** [func (w *Watcher) Update() error] *)
Definition Update : M (option error) :=
  publish_MSG "Update" "" "" (GoString "").

(** [func (w *Watcher) UpdateForAddPolicy(sec, ptype string, params ...string) error] *)
Definition UpdateForAddPolicy (sec ptype : string) (params : slice string) : M (option error) :=
  publish_MSG "UpdateForAddPolicy" sec ptype (GoStrings params).

(** [func (w *Watcher) UpdateForRemovePolicy(sec, ptype string, params ...string) error] *)
Definition UpdateForRemovePolicy (sec ptype : string) (params : slice string) : M (option error) :=
  publish_MSG "UpdateForRemovePolicy" sec ptype (GoStrings params).

(** [func (w *Watcher) UpdateForRemoveFilteredPolicy(sec, ptype string, fieldIndex int, fieldValues ...string) error] *)
Definition UpdateForRemoveFilteredPolicy (sec ptype : string) (fieldIndex : Z)
    (fieldValues : slice string) : M (option error) :=
  publish_MSG "UpdateForRemoveFilteredPolicy" sec ptype
    (GoString (itoa fieldIndex +:+ " " +:+ strings_Join (elems fieldValues) " ")).

(** [func (w *Watcher) UpdateForSavePolicy(model model.Model) error] *)
Definition UpdateForSavePolicy (model : Model) : M (option error) :=
  publish_MSG "UpdateForSavePolicy" "" "" (GoModel model).

(** [func (w *Watcher) GetWatcherOptions() WatcherOptions] *)
Definition GetWatcherOptions : M WatcherOptions :=
  Lock;;
  defer Unlock (p ← get; mret (options (w p))).

(** [close(w.close)]: closing a closed channel panics. *)
Definition close_chan : M unit :=
  λ p, if close (w p) then (Panic "close of closed channel", p)
       else (Ret (), emit EvCloseSignal (set_w (set_close true) p)).

(** [func (w *Watcher) Close()] *)
Definition Close : M unit :=
  Lock;;
  defer Unlock (
    close_chan;;
    p ← get;
    _ ← Publish (pubClient (w p)) (Channel (options (w p))) (Text "Close");
    mret ()).

(** *** The goroutine of [subscribe] *)

Definition nil_deref : string := "invalid memory address or nil pointer dereference".

(** Its deferred function. *)
Definition deferred_closes : M unit :=
  p ← get;
  err ← match sub p with
        | Some (c, channel) => netcall (EvPubSubClose c channel)
        | None => panic nil_deref
        end;
  log_err err;;
  err ← netcall (EvClientClose RolePub (pubClient (w p)));
  log_err err;;
  err ← netcall (EvClientClose RoleSub (subClient (w p)));
  log_err err.

(** Calling a [func(string)]: the closure installed by default logs one
    line; what a caller's function does is its own business. *)
Definition call_func (f : func) (data : payload) : M unit :=
  tell (EvCall f data);;
  match f with
  | CallbackNotSet => Println "Casbin Redis Watcher callback not set when an update was received"
  | UserFunc _ => mret ()
  end.

(** Running a call to its end in a goroutine of its own: a panic that
    nobody recovers ends the process; a call that waits has done nothing
    yet. *)
Definition invoke {A} (m : M A) (p : proc) : proc :=
  match m p with
  | (Ret _, p') => p'
  | (Panic msg, p') => set_fatal (Some msg) (emit (EvPanic msg) p')
  | (Blocked, _) => p
  end.

(** One step of the goroutine: receive from [ch], run the select, or call
    the callback.  Leaving the function runs the deferred closes.  A nil
    callback panics: the deferred function runs and the process dies. *)
Definition loop_step (p : proc) : proc :=
  match loop p with
  | NotStarted | Exited => p
  | Receiving =>
      match ch p with
      | [] => p
      | msg :: rest => emit (EvRecv msg) (set_loop (Selecting msg) (set_ch rest p))
      end
  | Selecting msg =>
      if close (w p) then invoke deferred_closes (set_loop Exited p)
      else set_loop (Calling msg) p
  | Calling data =>
      match callback (w p) with
      | Some f => set_loop Receiving (invoke (call_func f data) p)
      | None => invoke (defer deferred_closes (panic (A:=unit) nil_deref)) (set_loop Exited p)
      end
  end.

(** *** Interleavings *)

(** What can happen next: the bus delivers a message to the subscription,
    the goroutine takes a step, or some other goroutine calls a method of
    the watcher (method bodies hold the mutex, so they are taken whole; a
    panic in one of them is not recovered). *)
Inductive action : Type :=
| Deliver (m : payload)
| LoopStep
| CallSetUpdateCallback (cb : option func)
| CallUpdate
| CallUpdateForAddPolicy (sec ptype : string) (params : slice string)
| CallUpdateForRemovePolicy (sec ptype : string) (params : slice string)
| CallUpdateForRemoveFilteredPolicy (sec ptype : string) (fieldIndex : Z) (fieldValues : slice string)
| CallUpdateForSavePolicy (model : Model)
| CallGetWatcherOptions
| CallClose.

Definition perform (a : action) (p : proc) : proc :=
  match fatal p with
  | Some _ => p
  | None =>
      match a with
      | Deliver m => set_ch (ch p ++ [m]) p
      | LoopStep => loop_step p
      | CallSetUpdateCallback cb => invoke (SetUpdateCallback cb) p
      | CallUpdate => invoke Update p
      | CallUpdateForAddPolicy sec ptype params => invoke (UpdateForAddPolicy sec ptype params) p
      | CallUpdateForRemovePolicy sec ptype params => invoke (UpdateForRemovePolicy sec ptype params) p
      | CallUpdateForRemoveFilteredPolicy sec ptype i vs =>
          invoke (UpdateForRemoveFilteredPolicy sec ptype i vs) p
      | CallUpdateForSavePolicy model => invoke (UpdateForSavePolicy model) p
      | CallGetWatcherOptions => invoke GetWatcherOptions p
      | CallClose => invoke Close p
      end
  end.

Definition run (acts : list action) (p : proc) : proc := foldl (λ q a, perform a q) p acts.

End Program.

(** ** Notions used in the statements *)

(** The envelopes the five publishers build: a method tag with its payload
    shape. *)
Inductive valid_envelope : MSG → Prop :=
| valid_Update id :
    valid_envelope (mkMSG "Update" id "" "" (GoString ""))
| valid_AddPolicy id sec ptype params :
    valid_envelope (mkMSG "UpdateForAddPolicy" id sec ptype (GoStrings params))
| valid_RemovePolicy id sec ptype params :
    valid_envelope (mkMSG "UpdateForRemovePolicy" id sec ptype (GoStrings params))
| valid_RemoveFilteredPolicy id sec ptype s :
    valid_envelope (mkMSG "UpdateForRemoveFilteredPolicy" id sec ptype (GoString s))
| valid_SavePolicy id model :
    valid_envelope (mkMSG "UpdateForSavePolicy" id "" "" (GoModel model)).

(** The generic value a decoded payload is: a string comes back coerced to
    valid UTF-8, a []string as a []interface{} of the coerced strings (nil
    as nil), a model or a map as nested map[string]interface{} under the
    keys that were written. *)
Definition generic_string (s : string) : any := GoString (coerce_utf8 s).

Definition generic_strings (s : slice string) : any :=
  match s with
  | None => Nil
  | Some l => GoIfaces (generic_string <$> l)
  end.

Definition generic_rules (s : slice (slice string)) : any :=
  match s with
  | None => Nil
  | Some l => GoIfaces (generic_strings <$> l)
  end.

Definition generic_Model (m : Model) : any :=
  GoMap (encode_map ((λ sec, GoMap (encode_map (generic_rules <$> sec))) <$> m)).

Fixpoint generic (a : any) : any :=
  match a with
  | Nil => Nil
  | GoString s => generic_string s
  | GoStrings s => generic_strings s
  | GoModel m => generic_Model m
  | GoIfaces l => GoIfaces (generic <$> l)
  | GoMap m => GoMap (encode_map (generic <$> m))
  end.

(** How deep a value nests generic lists and maps. *)
Fixpoint depth (a : any) : nat :=
  match a with
  | GoIfaces l => S (foldr (λ x acc, Nat.max (depth x) acc) 0%nat l)
  | GoMap m => S (map_fold (λ _ x acc, Nat.max (depth x) acc) 0%nat m)
  | _ => 0%nat
  end.

(** The field values a payload lists, in order; null lists none. *)
Definition field_list (a : any) : option (list string) :=
  match a with
  | Nil => Some []
  | GoStrings s => Some (elems s)
  | GoIfaces l => mapM (λ x, match x with GoString s => Some s | _ => None end) l
  | _ => None
  end.

(** A Go string that is not valid UTF-8 (the single byte FF), and U+FFFD,
    the replacement rune, in UTF-8. *)
Definition invalid_string : string := String "255"%char "".

Definition RuneError : string := String "239"%char (String "191"%char (String "189"%char "")).

(** The messages a trace publishes, with their channel. *)
Definition published (t : list event) : list (string * payload) :=
  omap (λ ev, match ev with EvPublish _ channel m => Some (channel, m) | _ => None end) t.

(** The logged lines of a trace. *)
Definition logged (t : list event) : list string :=
  omap (λ ev, match ev with EvLog line => Some line | _ => None end) t.

(** The [Close()] calls on connections in a trace. *)
Definition is_close (ev : event) : bool :=
  match ev with
  | EvPubSubClose _ _ | EvClientClose _ _ => true
  | _ => false
  end.

(** What [log_err] adds to the trace. *)
Definition log_events (err : option error) : list event :=
  match err with
  | Some x => [EvLog (Error x)]
  | None => []
  end.

(** The events of the goroutine's deferred function when it starts with a
    trace of [n] events: the subscription is closed, then the client in
    [pubClient], then the client in [subClient]; every error is logged
    right after the close that returned it. *)
Definition close_events (e : env) (n : nat) (c : client) (channel : string) (x : Watcher)
    : list event :=
  let t1 := [EvPubSubClose c channel] ++ log_events (net e n) in
  let t2 := [EvClientClose RolePub (pubClient x)] ++ log_events (net e (n + length t1)) in
  let t3 := [EvClientClose RoleSub (subClient x)]
            ++ log_events (net e (n + length t1 + length t2)) in
  t1 ++ t2 ++ t3.

(** Reading a trace for the shutdown signal: nothing closed yet, the signal
    set, a message received after the signal, a callback called after
    that. *)
Inductive phase : Type := Open | Signalled | Late | Bad.

Definition phase_step (ph : phase) (ev : event) : phase :=
  match ph, ev with
  | Open, EvCloseSignal => Signalled
  | Signalled, EvRecv _ => Late
  | Late, EvCall _ _ => Bad
  | _, _ => ph
  end.

Definition scan (ph : phase) (t : list event) : phase := foldl phase_step ph t.

(** The phases in the order a trace goes through them. *)
Definition rank (ph : phase) : nat :=
  match ph with
  | Open => 0
  | Signalled => 1
  | Late => 2
  | Bad => 3
  end.

(** Events that leave the phase alone. *)
Definition inert (ev : event) : bool :=
  match ev with
  | EvCloseSignal | EvRecv _ | EvCall _ _ => false
  | _ => true
  end.

(** Events of the methods that only lock, publish and log. *)
Definition quiet (ev : event) : bool :=
  match ev with
  | EvLock | EvUnlock | EvLog _ | EvPublish _ _ _ => true
  | _ => false
  end.

(** What calling [f] leaves in the trace. *)
Definition call_events (f : func) (data : payload) : list event :=
  EvCall f data ::
  match f with
  | CallbackNotSet => [EvLog "Casbin Redis Watcher callback not set when an update was received"]
  | UserFunc _ => []
  end.

(** Between two steps the mutex is free, and a started goroutine has its
    subscription. *)
Definition settled (p : proc) : Prop :=
  l (w p) = false ∧ (loop p ≠ NotStarted → is_Some (sub p)).

(** What the phase of the trace says about the state. *)
Definition phase_inv (p : proc) : Prop :=
  match scan Open (trace p) with
  | Open => True
  | Signalled => close (w p) = true
  | Late => close (w p) = true ∧ (loop p = Exited ∨ ∃ m, loop p = Selecting m)
  | Bad => False
  end.

(** The callback is set and the goroutine has not called a nil callback. *)
Definition callback_inv (p : proc) : Prop :=
  is_Some (callback (w p)) ∧ Forall (λ ev, ev ≠ EvPanic nil_deref) (trace p).

(** The steps of a settled process, one constructor per way [perform] can
    go on an action. *)
Inductive transition (e : env) (p : proc) : action → proc → Prop :=
| t_stutter a :
    transition e p a p
| t_deliver m :
    transition e p (Deliver m) (set_ch (ch p ++ [m]) p)
| t_set_callback cb :
    transition e p (CallSetUpdateCallback cb)
      (mkProc (set_callback cb (w p)) (sub p) (ch p) (loop p) (fatal p)
         (trace p ++ [EvLock; EvUnlock]))
| t_quiet a evs :
    Forall (λ ev, quiet ev = true) evs →
    transition e p a (mkProc (w p) (sub p) (ch p) (loop p) (fatal p) (trace p ++ evs))
| t_close_open :
    close (w p) = false →
    transition e p CallClose
      (mkProc (set_close true (w p)) (sub p) (ch p) (loop p) (fatal p)
         (trace p ++ [EvLock; EvCloseSignal;
                      EvPublish (pubClient (w p)) (Channel (options (w p))) (Text "Close");
                      EvUnlock]))
| t_close_closed :
    close (w p) = true →
    transition e p CallClose
      (mkProc (w p) (sub p) (ch p) (loop p) (Some "close of closed channel")
         (trace p ++ [EvLock; EvUnlock; EvPanic "close of closed channel"]))
| t_recv m rest :
    loop p = Receiving → ch p = m :: rest →
    transition e p LoopStep
      (mkProc (w p) (sub p) rest (Selecting m) (fatal p) (trace p ++ [EvRecv m]))
| t_select_default m :
    loop p = Selecting m → close (w p) = false →
    transition e p LoopStep (set_loop (Calling m) p)
| t_select_closed m c channel :
    loop p = Selecting m → close (w p) = true → sub p = Some (c, channel) →
    transition e p LoopStep
      (mkProc (w p) (sub p) (ch p) Exited (fatal p)
         (trace p ++ close_events e (length (trace p)) c channel (w p)))
| t_call m f :
    loop p = Calling m → callback (w p) = Some f →
    transition e p LoopStep
      (mkProc (w p) (sub p) (ch p) Receiving (fatal p) (trace p ++ call_events f m))
| t_nil_call m c channel :
    loop p = Calling m → callback (w p) = None → sub p = Some (c, channel) →
    transition e p LoopStep
      (mkProc (w p) (sub p) (ch p) Exited (Some nil_deref)
         (trace p ++ close_events e (length (trace p)) c channel (w p) ++ [EvPanic nil_deref])).

(** The options [NewWatcher] turns down before it builds anything. *)
Definition config_refused (opt : WatcherOptions) : Prop :=
  Addresses opt = [] ∨ head (Addresses opt) = Some ""
  ∨ Namespace opt = ""
  ∨ (UseSentinel opt = true ∧ MasterName opt = "").

Definition config_errors : list error :=
  [errors_New "redis: missing redis node address(es)";
   errors_New "redis: missing key namespace";
   errors_New "redis: missing MasterName for Sentinel setup"].

(** Modelled from the spec: the redis library's pool sizing is outside this
    package.  The spec's "pool-size budget (default = 10 x available CPU
    parallelism if unspecified)" and the comment in [NewWatcher] ("the exact
    same logic the redis client uses under the hood") give the budget of a
    client built by [rds.NewClient]: its PoolSize, or 10 * NumCPU when that
    is zero.  For the two other constructors only a PoolSize that is given
    is a known budget. *)
Definition pool_budget (e : env) (c : client) : option Z :=
  match c with
  | NewClient opt => Some (if bool_decide (PoolSize opt = 0) then 10 * NumCPU e else PoolSize opt)
  | NewClusterClient _ _ n | NewFailoverClient _ _ n =>
      if bool_decide (n = 0) then None else Some n
  | ClusterClientPtr _ => None
  end.

(** The clients a trace constructs, with the field they are built for. *)
Definition constructed (t : list event) : list (role * client) :=
  omap (λ ev, match ev with EvNew r c => Some (r, c) | _ => None end) t.

(** The option value [NewWatcher] works with after its two defaulting
    steps (the pool size, then [initConfig]). *)
Definition defaulted (e : env) (opt : WatcherOptions) : WatcherOptions :=
  initConfig e
    (if bool_decide (MaxConnections opt = 0)
     then set_MaxConnections (uint_of_Z (int_of_Z (10 * NumCPU e))) opt
     else opt).

(** The process [NewWatcher] hands over once both pings have succeeded:
    [opt] is the option value after defaulting, [sc] and [pc] the clients it
    built. *)
Definition watching (opt : WatcherOptions) (sc pc : client) : proc :=
  let sc' := from_option ClusterClientPtr sc (SubClient opt) in
  let pc' := from_option ClusterClientPtr pc (PubClient opt) in
  mkProc
    (mkWatcher false sc' pc' opt false (Some (default CallbackNotSet (OptionalUpdateCallback opt))))
    (Some (sc', Channel opt)) [] Receiving None
    [EvNew RoleSub sc; EvNew RolePub pc; EvLock; EvUnlock;
     EvPing RoleSub sc'; EvPing RolePub pc';
     EvLock; EvSubscribe sc' (Channel opt); EvUnlock].

(** The set-up of the repository's tests ([initWatcher]): one address, the
    namespace foo, everything else left out; a machine with four CPUs and a
    network without errors. *)
Definition test_env : env := mkEnv 4 "0b6f4e2a-7c1d-4f53-9a8e-2d5c9b1e6f30" (λ _, None).

Definition test_options : WatcherOptions :=
  mkWatcherOptions (mkOptions "" "" 0) None None "" false "" ["127.0.0.1:6379"] "foo" 0
    false "" None.

Definition test_client : client := NewClient (mkOptions "127.0.0.1:6379" "" 0).

Definition test_watcher : proc :=
  mkProc
    (mkWatcher false test_client test_client
       (mkWatcherOptions (mkOptions "" "" 0) None None "/casbin" false
          "0b6f4e2a-7c1d-4f53-9a8e-2d5c9b1e6f30" ["127.0.0.1:6379"] "foo" 40 false "" None)
       false (Some CallbackNotSet))
    (Some (test_client, "/casbin")) [] Receiving None
    [EvNew RoleSub test_client; EvNew RolePub test_client; EvLock; EvUnlock;
     EvPing RoleSub test_client; EvPing RolePub test_client;
     EvLock; EvSubscribe test_client "/casbin"; EvUnlock].

(** The same watcher after Close, with its own Close notice received and
    the select still to come. *)
Definition closing_watcher : proc :=
  run test_env [CallClose; Deliver (Text "Close"); LoopStep] test_watcher.

(** *** Notions for the further properties *)

(** The payloads a trace shows being received by the goroutine, and the
    payloads it shows being handed to a callback, oldest first. *)
Definition received (t : list event) : list payload :=
  omap (λ ev, match ev with EvRecv m => Some m | _ => None end) t.

Definition called (t : list event) : list payload :=
  omap (λ ev, match ev with EvCall _ m => Some m | _ => None end) t.

(** The payloads the bus delivers in a list of actions. *)
Definition delivered (acts : list action) : list payload :=
  omap (λ a, match a with Deliver m => Some m | _ => None end) acts.

(** The message the goroutine holds between receipt and call. *)
Definition in_hand (s : pc) : list payload :=
  match s with
  | Selecting m | Calling m => [m]
  | _ => []
  end.

(** Following the mutex through a trace: [Some held] after a well-formed
    sequence of Lock and Unlock, [None] once a Lock meets a held mutex or an
    Unlock a free one. *)
Definition mutex_step (st : option bool) (ev : event) : option bool :=
  match st, ev with
  | Some false, EvLock => Some true
  | Some true, EvLock => None
  | Some true, EvUnlock => Some false
  | Some false, EvUnlock => None
  | _, _ => st
  end.

Definition mutex_after (t : list event) : option bool := foldl mutex_step (Some false) t.

(** The three closes of the goroutine's deferred function, for a process
    whose subscription is [c], [channel]. *)
Definition three_closes (c : client) (channel : string) (x : Watcher) : list event :=
  [EvPubSubClose c channel; EvClientClose RolePub (pubClient x);
   EvClientClose RoleSub (subClient x)].

(** The closes a process must have in its trace: none while the goroutine
    runs, the three of the deferred function once it has left. *)
Definition closes_inv (p : proc) : Prop :=
  match sub p with
  | Some (c, channel) =>
      filter (λ ev, is_close ev = true) (trace p)
      = match loop p with
        | Exited => three_closes c channel (w p)
        | _ => []
        end
  | None => True
  end.

(** What the trace and the goroutine's position say about each other:
    every received message has been handed on, except the one in hand (or
    the one dropped on leaving). *)
Definition handover_inv (p : proc) : Prop :=
  ∃ d, received (trace p) = called (trace p) ++ d
       ∧ match loop p with
         | Exited => (length d ≤ 1)%nat
         | s => d = in_hand s
         end.

(** The log line of the callback installed by default. *)
Definition not_set_line : string :=
  "Casbin Redis Watcher callback not set when an update was received".

(** The five publishing methods, with the method tag each one writes. *)
Definition publisher (e : env) (a : action) : option (M (option error) * string) :=
  match a with
  | CallUpdate => Some (Update e, "Update")
  | CallUpdateForAddPolicy sec ptype params =>
      Some (UpdateForAddPolicy e sec ptype params, "UpdateForAddPolicy")
  | CallUpdateForRemovePolicy sec ptype params =>
      Some (UpdateForRemovePolicy e sec ptype params, "UpdateForRemovePolicy")
  | CallUpdateForRemoveFilteredPolicy sec ptype i vs =>
      Some (UpdateForRemoveFilteredPolicy e sec ptype i vs, "UpdateForRemoveFilteredPolicy")
  | CallUpdateForSavePolicy model => Some (UpdateForSavePolicy e model, "UpdateForSavePolicy")
  | _ => None
  end.

(** The watcher as the composite literal of [NewWatcher] leaves it, both
    fields holding [c]. *)
Definition literal (c : client) : proc :=
  mkProc (mkWatcher false c c zeroOptions false None) None [] NotStarted None
    [EvNew RoleSub c; EvNew RolePub c].

(** What [NewWatcher] returns for what its second half returns. *)
Definition returned (r : outcome (option error) * proc) : outcome (proc + error) * list event :=
  match r with
  | (Ret None, p) => (Ret (inl p), trace p)
  | (Ret (Some err), p) => (Ret (inr err), trace p)
  | (Panic msg, p) => (Panic msg, trace p)
  | (Blocked, p) => (Blocked, trace p)
  end.

(** A network whose first ping (the fifth event of [NewWatcher]) is refused. *)
Definition refusing_env : env :=
  mkEnv 4 "0b6f4e2a-7c1d-4f53-9a8e-2d5c9b1e6f30"
    (λ n, if bool_decide (n = 4%nat)
          then Some (errors_New "dial tcp 127.0.0.1:6379: connect: connection refused")
          else None).

(** Options that hand in cluster clients of the caller's own, ask for 64
    connections and name three nodes. *)
Definition cluster_options : WatcherOptions :=
  mkWatcherOptions (mkOptions "" "secret" 0) (Some 1%nat) (Some 2%nat) "/policy" false "node-a"
    ["10.0.0.1:7000"; "10.0.0.2:7000"; "10.0.0.3:7000"] "foo" 64 false "" (Some (UserFunc 0)).

(** The watcher of the tests with one message past the select, its call
    still to come. *)
Definition calling_watcher : proc :=
  run test_env [Deliver (Text "update"); LoopStep; LoopStep] test_watcher.

Ltac unfold_M :=
  cbv [mbind mret M_bind M_ret defer get tell modify update panic Println Lock Unlock
       netcall Publish log_err close_chan logRecord publish_MSG].

Ltac destruct_proc p :=
  let lk := fresh "lk" in
  destruct p as [[lk ? ? ? ? ?] ? ? ? ? ?]; cbn in *; try subst lk.

(** ** Small runs *)

Example itoa_runs : itoa 0 = "0" ∧ itoa 1 = "1" ∧ itoa (-12) = "-12" ∧ itoa 2048 = "2048".
Proof. repeat split. Qed.

Example strings_Join_runs :
  strings_Join [] " " = "" ∧ strings_Join ["read"] " " = "read"
  ∧ strings_Join ["data1"; "read"] " " = "data1 read".
Proof. repeat split. Qed.

Example variadic_runs :
  variadic ([] : list string) = None ∧ variadic ["alice"] = Some ["alice"].
Proof. split; reflexivity. Qed.

Example int_of_Z_runs :
  int_of_Z 40 = 40 ∧ int_of_Z (2 ^ 63) = - 2 ^ 63 ∧ uint_of_Z (-1) = 2 ^ 64 - 1.
Proof. repeat split. Qed.

(** Well-formed text passes the string writer unchanged (ASCII, the two
    bytes of U+00E9, the three bytes of U+FFFD itself); a byte FF, a lone
    leading byte, an overlong encoding and an encoded surrogate become one
    U+FFFD for each of their bytes. *)
Example coerce_utf8_runs :
  coerce_utf8 "alice" = "alice"
  ∧ coerce_utf8 (String "195"%char (String "169"%char "")) = String "195"%char (String "169"%char "")
  ∧ coerce_utf8 RuneError = RuneError
  ∧ coerce_utf8 invalid_string = RuneError
  ∧ coerce_utf8 (String "195"%char "a") = RuneError +:+ "a"
  ∧ coerce_utf8 (String "192"%char (String "128"%char "")) = RuneError +:+ RuneError
  ∧ coerce_utf8 (String "237"%char (String "160"%char (String "128"%char "")))
    = RuneError +:+ RuneError +:+ RuneError
  ∧ ValidString "alice" = true ∧ ValidString invalid_string = false.
Proof. repeat split. Qed.

(** Two keys that differ only in invalid bytes are written under one name;
    the one that sorts last is the one a reader keeps. *)
Example encode_map_runs :
  marshal_any (GoMap (<[String "254"%char "" := GoString "a"]>
                      (<[String "255"%char "" := GoString "b"]>
                      (<["k" := Nil]> ∅))))
  = JObject (<[RuneError := JString "b"]> (<["k" := JNull]> ∅)).
Proof. vm_compute. reflexivity. Qed.

(** TestWatcher: a callback is set, Update is called, the watcher is closed,
    and the goroutine receives the two messages it published itself. *)
Example TestWatcher_run :
  drop 9 (trace (run test_env
                   [CallSetUpdateCallback (Some (UserFunc 0)); CallUpdate;
                    Deliver (Text "update"); LoopStep; LoopStep; LoopStep;
                    CallClose; Deliver (Text "Close"); LoopStep; LoopStep]
                   test_watcher))
  = [EvLock; EvUnlock;
     EvLock;
     EvPublish test_client "/casbin"
       (Encoded (MarshalBinary
                   (mkMSG "Update" "0b6f4e2a-7c1d-4f53-9a8e-2d5c9b1e6f30" "" "" (GoString ""))));
     EvUnlock;
     EvRecv (Text "update"); EvCall (UserFunc 0) (Text "update");
     EvLock; EvCloseSignal; EvPublish test_client "/casbin" (Text "Close"); EvUnlock;
     EvRecv (Text "Close");
     EvPubSubClose test_client "/casbin";
     EvClientClose RolePub test_client; EvClientClose RoleSub test_client].
Proof. reflexivity. Qed.

(** ** UTF-8 coercion *)

Lemma DecodeRuneInString_pos (c : ascii) (r : string) (n : nat) :
  DecodeRuneInString c r = Some n → ∃ k, n = S k.
Proof.
  unfold DecodeRuneInString. destruct (utf8_first c) as [[sz [lo hi]]|]; [|done].
  destruct sz as [|[|[|[|[|sz]]]]]; destruct r as [|c1 [|c2 [|c3 r]]];
    repeat case_match; intros; simplify_eq; by eexists.
Qed.

Lemma DecodeRuneInString_copy (c : ascii) (r : string) (k : nat) :
  DecodeRuneInString c r = Some (S k) → DecodeRuneInString c (coerce_from k r) = Some (S k).
Proof.
  unfold DecodeRuneInString. destruct (utf8_first c) as [[sz [lo hi]]|]; [|done].
  destruct sz as [|[|[|[|[|sz]]]]]; destruct r as [|c1 [|c2 [|c3 r]]];
    try done; intros H;
    repeat match type of H with
           | context [if ?b then _ else _] => destruct b eqn:?
           end; simplify_eq; cbn [coerce_from];
    repeat match goal with E : _ = true |- _ => rewrite E; clear E end; done.
Qed.

Lemma DecodeRuneInString_extend (c : ascii) (r t : string) (n : nat) :
  DecodeRuneInString c r = Some n → DecodeRuneInString c (r +:+ t) = Some n.
Proof.
  unfold DecodeRuneInString. destruct (utf8_first c) as [[sz [lo hi]]|]; [|done].
  destruct sz as [|[|[|[|[|sz]]]]]; destruct r as [|c1 [|c2 [|c3 r]]];
    cbn; try done; by destruct t.
Qed.

Lemma coerce_from_idem (s : string) (k : nat) :
  coerce_from k (coerce_from k s) = coerce_from k s.
Proof.
  revert k. induction s as [|c s IH]; intros k; [done|].
  destruct k as [|k]; cbn [coerce_from].
  - destruct (DecodeRuneInString c s) as [n|] eqn:Hd.
    + destruct (DecodeRuneInString_pos _ _ _ Hd) as [j ->].
      cbn [coerce_from]. rewrite Nat.sub_1_r. cbn [Nat.pred].
      rewrite (DecodeRuneInString_copy _ _ _ Hd). rewrite Nat.sub_1_r. cbn [Nat.pred].
      by rewrite IH.
    + change (coerce_from 0 (String "239"%char (String "191"%char (String "189"%char (coerce_from 0 s)))))
        with (String "239"%char (String "191"%char (String "189"%char (coerce_from 0 (coerce_from 0 s))))).
      by rewrite IH.
  - by rewrite IH.
Qed.

Lemma coerce_utf8_idem (s : string) : coerce_utf8 (coerce_utf8 s) = coerce_utf8 s.
Proof. apply coerce_from_idem. Qed.

Lemma coerce_from_length (s : string) (k : nat) :
  (String.length s ≤ String.length (coerce_from k s))%nat.
Proof.
  revert k. induction s as [|c s IH]; intros k; [done|].
  destruct k as [|k]; cbn [coerce_from].
  - destruct (DecodeRuneInString c s) as [n|]; cbn; [specialize (IH (n - 1)%nat)|specialize (IH 0%nat)]; lia.
  - cbn. specialize (IH k). lia.
Qed.

Lemma DecodeRuneInString_length (c : ascii) (r : string) (k : nat) :
  DecodeRuneInString c r = Some (S k) → (k ≤ String.length r)%nat.
Proof.
  unfold DecodeRuneInString. destruct (utf8_first c) as [[sz [lo hi]]|]; [|done].
  destruct sz as [|[|[|[|[|sz]]]]]; destruct r as [|c1 [|c2 [|c3 r]]];
    try done; intros H;
    repeat match type of H with
           | context [if ?b then _ else _] => destruct b eqn:?
           end; simplify_eq; cbn; lia.
Qed.

Lemma ValidString_from_coerce (s : string) (k : nat) :
  ValidString_from k s = true → coerce_from k s = s.
Proof.
  revert k. induction s as [|c s IH]; intros k; [done|].
  destruct k as [|k]; cbn [coerce_from ValidString_from].
  - destruct (DecodeRuneInString c s) as [n|]; [|done]. intros H. by rewrite IH.
  - intros H. by rewrite IH.
Qed.

Lemma coerce_from_ValidString (s : string) (k : nat) :
  coerce_from k s = s → (k ≤ String.length s)%nat → ValidString_from k s = true.
Proof.
  revert k. induction s as [|c s IH]; intros k.
  - cbn. intros _ Hk. apply bool_decide_eq_true. lia.
  - destruct k as [|k]; cbn [coerce_from ValidString_from String.length].
    + destruct (DecodeRuneInString c s) as [n|] eqn:Hd.
      * destruct (DecodeRuneInString_pos _ _ _ Hd) as [j ->].
        rewrite Nat.sub_1_r. cbn [Nat.pred]. intros [= Heq] _.
        apply IH; [done|]. by apply (DecodeRuneInString_length c).
      * intros Heq _. apply (f_equal String.length) in Heq. cbn in Heq.
        pose proof (coerce_from_length s 0). lia.
    + intros [= Heq] Hk. apply IH; [done|lia].
Qed.

Lemma coerce_utf8_ValidString (s : string) : coerce_utf8 s = s ↔ ValidString s = true.
Proof.
  split.
  - intros H. apply coerce_from_ValidString; [done|lia].
  - apply ValidString_from_coerce.
Qed.

Lemma ValidString_coerce_utf8 (s : string) : ValidString (coerce_utf8 s) = true.
Proof. apply coerce_utf8_ValidString, coerce_utf8_idem. Qed.

Lemma ValidString_from_app (a b : string) (k : nat) :
  ValidString_from k a = true → ValidString b = true → ValidString_from k (a +:+ b) = true.
Proof.
  intros Ha Hb. revert k Ha. induction a as [|c a IH]; intros k Ha.
  - cbn in Ha. apply bool_decide_eq_true in Ha. by subst k.
  - change (String c a +:+ b) with (String c (a +:+ b)).
    destruct k as [|k]; cbn [ValidString_from] in *.
    + destruct (DecodeRuneInString c a) as [n|] eqn:Hd; [|done].
      rewrite (DecodeRuneInString_extend _ _ b _ Hd). by apply IH.
    + by apply IH.
Qed.

Lemma ValidString_app (a b : string) :
  ValidString a = true → ValidString b = true → ValidString (a +:+ b) = true.
Proof. apply ValidString_from_app. Qed.

Lemma ValidString_concat (sep : string) (l : list string) :
  ValidString sep = true → Forall (λ s, ValidString s = true) l →
  ValidString (String.concat sep l) = true.
Proof.
  intros Hsep Hl. induction Hl as [|x l Hx Hl IH]; [done|].
  destruct l as [|y l]; [done|].
  change (String.concat sep (x :: y :: l)) with (x +:+ sep +:+ String.concat sep (y :: l)).
  apply ValidString_app; [done|]. by apply ValidString_app.
Qed.

Lemma ValidString_itoa (n : Z) : ValidString (itoa n) = true.
Proof.
  unfold itoa.
  assert (∀ d, ValidString (NilEmpty.string_of_uint d) = true) as Hu.
  { induction d; done. }
  assert (∀ d, ValidString (NilZero.string_of_uint d) = true) as Hz.
  { intros d. destruct d; try done; apply (Hu (_ d)). }
  destruct (Z.to_int n) as [d|d]; cbn [NilZero.string_of_int]; [apply Hz|].
  change (ValidString (NilZero.string_of_uint d) = true). apply Hz.
Qed.

(** ** Maps as json.Marshal writes them *)

Lemma sorted_keys_elem {A} (m : gmap string A) (k : string) :
  k ∈ sorted_keys m ↔ is_Some (m !! k).
Proof. unfold sorted_keys. by rewrite merge_sort_Permutation, elem_of_elements, elem_of_dom. Qed.

Lemma encode_map_fmap {A B} (f : A → B) (m : gmap string A) :
  encode_map (f <$> m) = f <$> encode_map m.
Proof.
  unfold encode_map, sorted_keys. rewrite dom_fmap_L.
  generalize (merge_sort key_le (elements (dom m))). intros l.
  rewrite <- (fmap_empty f). generalize (∅ : gmap string A).
  induction l as [|k l IH]; intros acc; [done|]. cbn. rewrite <- IH. f_equal.
  unfold write_member. rewrite lookup_fmap.
  destruct (m !! k); cbn; [by rewrite fmap_insert|done].
Qed.

Lemma write_members_valid {A} (m : gmap string A) (l : list string) (acc : gmap string A)
    (k : string) :
  (∀ x, x ∈ l → coerce_utf8 x = x) →
  foldl (write_member m) acc l !! k
  = if decide (k ∈ l)
    then match m !! k with Some v => Some v | None => acc !! k end
    else acc !! k.
Proof.
  revert acc. induction l as [|x l IH]; intros acc Hl.
  - cbn. by rewrite decide_False by apply not_elem_of_nil.
  - cbn [foldl]. rewrite IH by (intros y Hy; apply Hl; by right).
    assert (coerce_utf8 x = x) as Hx by (apply Hl; by left).
    unfold write_member. rewrite Hx.
    destruct (decide (k = x)) as [->|Hne].
    + rewrite (decide_True (P := x ∈ x :: l)) by by left.
      destruct (m !! x) as [v|] eqn:Hm.
      * rewrite lookup_insert_eq. by destruct (decide (x ∈ l)).
      * by destruct (decide (x ∈ l)).
    + assert (match m !! x with Some v => <[x:=v]> acc | None => acc end !! k = acc !! k)
        as ->.
      { destruct (m !! x); [by rewrite lookup_insert_ne|done]. }
      destruct (decide (k ∈ l)) as [Hin|Hnin].
      * rewrite decide_True by by right. done.
      * rewrite decide_False; [done|]. rewrite elem_of_cons. intros [?|?]; done.
Qed.

Lemma encode_map_valid {A} (m : gmap string A) :
  (∀ k, is_Some (m !! k) → coerce_utf8 k = k) → encode_map m = m.
Proof.
  intros Hm. apply map_eq. intros k. unfold encode_map.
  rewrite write_members_valid by (intros x Hx; by apply Hm, sorted_keys_elem).
  rewrite lookup_empty. destruct (decide (k ∈ sorted_keys m)) as [Hin|Hnin].
  - by destruct (m !! k).
  - rewrite sorted_keys_elem in Hnin. symmetry. by apply eq_None_not_Some.
Qed.

Lemma encode_map_keys {A} (m : gmap string A) (k : string) :
  is_Some (encode_map m !! k) → ∃ k0, k = coerce_utf8 k0 ∧ is_Some (m !! k0).
Proof.
  unfold encode_map. generalize (sorted_keys m). intros l.
  assert (∀ acc : gmap string A,
            (is_Some (acc !! k) → ∃ k0, k = coerce_utf8 k0 ∧ is_Some (m !! k0)) →
            is_Some (foldl (write_member m) acc l !! k) →
            ∃ k0, k = coerce_utf8 k0 ∧ is_Some (m !! k0)) as H.
  { induction l as [|x l IH]; intros acc Hacc; [done|]. cbn [foldl]. apply IH.
    unfold write_member. destruct (m !! x) as [v|] eqn:Hx; [|done].
    destruct (decide (coerce_utf8 x = k)) as [<-|Hne].
    - intros _. exists x. by rewrite Hx.
    - by rewrite lookup_insert_ne. }
  apply H. rewrite lookup_empty. by intros [? ?].
Qed.

Lemma encode_map_idem {A} (m : gmap string A) : encode_map (encode_map m) = encode_map m.
Proof.
  apply encode_map_valid. intros k Hk.
  destruct (encode_map_keys _ _ Hk) as (k0 & -> & _). apply coerce_utf8_idem.
Qed.

Lemma encode_map_exact {A} (m : gmap string A) :
  encode_map m = m ↔ ∀ k, is_Some (m !! k) → ValidString k = true.
Proof.
  split.
  - intros Heq k Hk. rewrite <- Heq in Hk.
    destruct (encode_map_keys _ _ Hk) as (k0 & -> & _). apply ValidString_coerce_utf8.
  - intros H. apply encode_map_valid. intros k Hk. by apply coerce_utf8_ValidString, H.
Qed.

(** ** The codec *)

Lemma unmarshal_strings (l : list string) :
  unmarshal_any <$> (marshal_string <$> l) = generic_string <$> l.
Proof. induction l as [|x l IH]; [done|]. cbn. by rewrite IH. Qed.

Lemma unmarshal_marshal_strings (s : slice string) :
  unmarshal_any (marshal_slice marshal_string s) = generic_strings s.
Proof. destruct s as [l|]; [|done]. cbn. by rewrite unmarshal_strings. Qed.

Lemma unmarshal_marshal_rules (s : slice (slice string)) :
  unmarshal_any (marshal_slice (marshal_slice marshal_string) s) = generic_rules s.
Proof.
  destruct s as [l|]; [|done]. cbn. f_equal.
  induction l as [|x l IH]; [done|]. cbn.
  by rewrite IH, unmarshal_marshal_strings.
Qed.

Lemma unmarshal_JObject (m : gmap string json) :
  unmarshal_any (JObject m) = GoMap (unmarshal_any <$> m).
Proof. done. Qed.

Lemma marshal_GoMap (m : gmap string any) :
  marshal_any (GoMap m) = JObject (encode_map (marshal_any <$> m)).
Proof. done. Qed.

Lemma unmarshal_marshal_Model (m : Model) :
  unmarshal_any (marshal_Model m) = generic_Model m.
Proof.
  unfold marshal_Model, generic_Model. rewrite unmarshal_JObject. f_equal.
  rewrite <- encode_map_fmap. f_equal.
  rewrite <- map_fmap_compose. apply map_fmap_ext. intros k sec _. cbn [compose].
  rewrite unmarshal_JObject. f_equal. rewrite <- encode_map_fmap. f_equal.
  rewrite <- map_fmap_compose. apply map_fmap_ext. intros k' rules _. cbn [compose].
  apply unmarshal_marshal_rules.
Qed.

Lemma depth_list (l : list any) (x : any) : x ∈ l → (depth x < depth (GoIfaces l))%nat.
Proof. intros Hin. cbn. induction Hin; cbn; lia. Qed.

Lemma depth_map (m : gmap string any) (k : string) (x : any) :
  m !! k = Some x → (depth x < depth (GoMap m))%nat.
Proof.
  cbn. revert k x. induction m as [|i y m Hi Hfk IH] using map_first_key_ind; intros k x Hk.
  - by rewrite lookup_empty in Hk.
  - rewrite map_fold_insert_first_key by done.
    destruct (decide (i = k)) as [->|Hne].
    + rewrite lookup_insert_eq in Hk. injection Hk as ->. lia.
    + rewrite lookup_insert_ne in Hk by done. specialize (IH _ _ Hk). lia.
Qed.

(** Induction on dynamic values, through the lists and maps they nest. *)
Lemma any_nested_ind (P : any → Prop) :
  P Nil → (∀ s, P (GoString s)) → (∀ s, P (GoStrings s)) → (∀ m, P (GoModel m)) →
  (∀ l, Forall P l → P (GoIfaces l)) →
  (∀ m, map_Forall (λ _, P) m → P (GoMap m)) →
  ∀ a, P a.
Proof.
  intros HN HS HSs HMo HL HM a.
  remember (depth a) as n eqn:Hn. revert a Hn.
  induction n as [n IH] using lt_wf_ind. intros a ->.
  destruct a as [|s|s|m|l|m]; auto.
  - apply HL, Forall_forall. intros x Hin. apply (IH (depth x)); [|done]. by apply depth_list.
  - apply HM. intros k x Hk. apply (IH (depth x)); [|done]. by apply (depth_map m k).
Qed.

Lemma unmarshal_marshal_any (a : any) : unmarshal_any (marshal_any a) = generic a.
Proof.
  induction a as [|s|s|m|l IH|m IH] using any_nested_ind.
  - done.
  - done.
  - apply unmarshal_marshal_strings.
  - apply unmarshal_marshal_Model.
  - cbn. f_equal. rewrite <- list_fmap_compose. apply Forall_fmap_ext_1. exact IH.
  - rewrite marshal_GoMap, unmarshal_JObject. cbn [generic]. f_equal.
    rewrite <- encode_map_fmap. f_equal.
    rewrite <- map_fmap_compose. apply map_fmap_ext. intros k x Hk.
    exact (IH k x Hk).
Qed.

Lemma decode_MarshalBinary (m : MSG) :
  decode (MarshalBinary m)
  = (mkMSG (coerce_utf8 (Method m)) (coerce_utf8 (ID m)) (coerce_utf8 (Sec m))
       (coerce_utf8 (Ptype m)) (unmarshal_any (marshal_any (Params m))), None).
Proof. reflexivity. Qed.

Lemma marshal_generic_string (s : string) : marshal_any (generic_string s) = marshal_string s.
Proof. unfold generic_string, marshal_string. cbn. unfold marshal_string. by rewrite coerce_utf8_idem. Qed.

Lemma marshal_generic_strings (s : slice string) :
  marshal_any (generic_strings s) = marshal_slice marshal_string s.
Proof.
  destruct s as [l|]; [|done]. cbn. f_equal.
  induction l as [|x l IH]; [done|]. cbn [fmap list_fmap]. cbn [fmap list_fmap] in IH.
  by rewrite IH, marshal_generic_string.
Qed.

Lemma marshal_generic_rules (s : slice (slice string)) :
  marshal_any (generic_rules s) = marshal_slice (marshal_slice marshal_string) s.
Proof.
  destruct s as [l|]; [|done]. cbn. f_equal.
  induction l as [|x l IH]; [done|]. cbn [fmap list_fmap]. cbn [fmap list_fmap] in IH.
  by rewrite IH, marshal_generic_strings.
Qed.

Lemma marshal_generic_Model (m : Model) :
  marshal_any (generic_Model m) = marshal_Model m.
Proof.
  unfold marshal_Model, generic_Model. rewrite marshal_GoMap. f_equal.
  rewrite encode_map_fmap, encode_map_idem, <- encode_map_fmap. f_equal.
  rewrite <- map_fmap_compose. apply map_fmap_ext. intros k sec _. cbn [compose].
  rewrite marshal_GoMap. f_equal.
  rewrite encode_map_fmap, encode_map_idem, <- encode_map_fmap. f_equal.
  rewrite <- map_fmap_compose. apply map_fmap_ext. intros k' rules _. cbn [compose].
  apply marshal_generic_rules.
Qed.

Lemma marshal_generic (a : any) : marshal_any (generic a) = marshal_any a.
Proof.
  induction a as [|s|s|m|l IH|m IH] using any_nested_ind.
  - done.
  - apply marshal_generic_string.
  - apply marshal_generic_strings.
  - apply marshal_generic_Model.
  - cbn. f_equal. rewrite <- list_fmap_compose. apply Forall_fmap_ext_1. exact IH.
  - cbn [generic]. rewrite !marshal_GoMap. f_equal.
    rewrite encode_map_fmap, encode_map_idem, <- encode_map_fmap. f_equal.
    rewrite <- map_fmap_compose. apply map_fmap_ext. intros k x Hk.
    exact (IH k x Hk).
Qed.

(** C2 as stated fails: the envelope UpdateForAddPolicy builds for the
    fields alice, book1, write is valid, and decoding its encoding gives a
    different envelope (Params is a []interface{}, no longer a []string). *)
Lemma roundtrip_not_exact :
  valid_envelope
    (mkMSG "UpdateForAddPolicy" "id" "p" "p" (GoStrings (Some ["alice"; "book1"; "write"])))
  ∧ (decode (MarshalBinary
       (mkMSG "UpdateForAddPolicy" "id" "p" "p" (GoStrings (Some ["alice"; "book1"; "write"]))))).1
    ≠ mkMSG "UpdateForAddPolicy" "id" "p" "p" (GoStrings (Some ["alice"; "book1"; "write"])).
Proof.
  split; [constructor|]. rewrite decode_MarshalBinary, unmarshal_marshal_any.
  intros H. apply (f_equal Params) in H. cbn [fst Params generic generic_strings] in H.
  discriminate H.
Qed.

(** C2, amended: for every envelope m, decoding the encoding of m succeeds
    and reproduces Method, ID, Sec and Ptype coerced to valid UTF-8 (every
    byte outside a well-formed encoding replaced by U+FFFD); Params comes
    back in generic form (a string coerced in the same way, a []string as a
    []interface{} of the coerced strings in order, or nil for a nil slice,
    a model as nested generic maps); encoding the decoded envelope gives
    the encoding of m again; and a valid envelope is reproduced exactly if
    and only if ID, Sec and Ptype are valid UTF-8 and its Params is a
    string that is valid UTF-8. *)
Theorem roundtrip_generic (m : MSG) :
  decode (MarshalBinary m)
  = (mkMSG (coerce_utf8 (Method m)) (coerce_utf8 (ID m)) (coerce_utf8 (Sec m))
       (coerce_utf8 (Ptype m)) (generic (Params m)), None)
  ∧ MarshalBinary (decode (MarshalBinary m)).1 = MarshalBinary m
  ∧ (valid_envelope m →
     ((decode (MarshalBinary m)).1 = m
      ↔ ValidString (ID m) = true ∧ ValidString (Sec m) = true
        ∧ ValidString (Ptype m) = true
        ∧ ∃ s, Params m = GoString s ∧ ValidString s = true)).
Proof.
  rewrite decode_MarshalBinary, unmarshal_marshal_any. split; [done|]. split.
  - unfold MarshalBinary, marshal_string. cbn [fst Method ID Sec Ptype Params].
    by rewrite marshal_generic, !coerce_utf8_idem.
  - intros Hm. cbn [fst]. split.
    + intros Heq.
      pose proof (f_equal ID Heq) as Hid. pose proof (f_equal Sec Heq) as Hsec.
      pose proof (f_equal Ptype Heq) as Hptype. pose proof (f_equal Params Heq) as Hparams.
      clear Heq.
      destruct Hm as [id|id sec ptype [l|]|id sec ptype [l|]|id sec ptype s|id model];
        cbn [Method ID Sec Ptype Params generic generic_strings generic_Model
             generic_string] in *;
        try discriminate Hparams;
        rewrite <- !coerce_utf8_ValidString; (split_and!; [done..|]);
        eexists; (split; [reflexivity|]);
        apply coerce_utf8_ValidString; unfold generic_string in Hparams; congruence.
    + intros (Hid & Hsec & Hptype & s & Hs & Hvs).
      apply coerce_utf8_ValidString in Hid, Hsec, Hptype, Hvs.
      destruct m as [a b c d prm]. cbn [Method ID Sec Ptype Params] in *. subst prm.
      cbn [generic]. unfold generic_string. rewrite Hid, Hsec, Hptype, Hvs.
      f_equal. inversion Hm; reflexivity.
Qed.

Lemma roundtrip_generic_witness :
  valid_envelope (mkMSG "UpdateForRemoveFilteredPolicy" "id" "p" "p" (GoString "1 data1 read"))
  ∧ ((decode (MarshalBinary
                (mkMSG "UpdateForRemoveFilteredPolicy" "id" "p" "p" (GoString "1 data1 read")))).1
     = mkMSG "UpdateForRemoveFilteredPolicy" "id" "p" "p" (GoString "1 data1 read")
     ↔ ValidString "id" = true ∧ ValidString "p" = true ∧ ValidString "p" = true
       ∧ ∃ s, GoString "1 data1 read" = GoString s ∧ ValidString s = true).
Proof.
  split; [constructor|].
  apply (roundtrip_generic
           (mkMSG "UpdateForRemoveFilteredPolicy" "id" "p" "p" (GoString "1 data1 read"))).
  constructor.
Defined.

(** ** Method calls on a watcher whose mutex is free *)

Lemma publish_MSG_run (e : env) (method sec ptype : string) (params : any) (p : proc) :
  l (w p) = false →
  publish_MSG e method sec ptype params p =
    (Ret (net e (S (length (trace p)))),
     mkProc (w p) (sub p) (ch p) (loop p) (fatal p)
       (trace p ++
          [EvLock;
           EvPublish (pubClient (w p)) (Channel (options (w p)))
             (Encoded (MarshalBinary (mkMSG method (LocalID (options (w p))) sec ptype params)));
           EvUnlock] ++ log_events (net e (S (length (trace p)))))).
Proof.
  intros Hl. destruct_proc p. unfold_M. cbn.
  rewrite length_app, Nat.add_1_r.
  destruct (net e (S (length trace0))) as [x|]; cbn;
    unfold emit, set_w; cbn; rewrite <- ?app_assoc; reflexivity.
Qed.

Lemma strings_Join_concat (elems : list string) (sep : string) :
  strings_Join elems sep = String.concat sep elems.
Proof.
  induction elems as [|x [|y rest] IH]; [done..|].
  change (strings_Join (x :: y :: rest) sep) with (x +:+ sep +:+ strings_Join (y :: rest) sep).
  by rewrite IH.
Qed.

Lemma published_app (t1 t2 : list event) :
  published (t1 ++ t2) = published t1 ++ published t2.
Proof. apply omap_app. Qed.

Lemma published_log_events (err : option error) : published (log_events err) = [].
Proof. by destruct err. Qed.

Lemma publish_MSG_published (e : env) (method sec ptype : string) (params : any) (p : proc) :
  l (w p) = false →
  published (trace (publish_MSG e method sec ptype params p).2)
  = published (trace p) ++
      [(Channel (options (w p)),
        Encoded (MarshalBinary (mkMSG method (LocalID (options (w p))) sec ptype params)))].
Proof.
  intros Hl. rewrite publish_MSG_run by done. cbn [snd trace].
  rewrite published_app. f_equal. cbn. by rewrite published_log_events.
Qed.

(** C5 as stated fails on a field value that is not valid UTF-8: for the
    one-byte value FF, UpdateForRemoveFilteredPolicy("p", "p", 1, "\xff")
    publishes an envelope whose payload is "1 " followed by U+FFFD, not
    "1 " followed by the byte. *)
Lemma UpdateForRemoveFilteredPolicy_invalid_byte :
  ∃ doc,
    published (trace (UpdateForRemoveFilteredPolicy test_env "p" "p" 1
                        (variadic [invalid_string]) test_watcher).2)
      = published (trace test_watcher) ++ [("/casbin", Encoded doc)]
    ∧ Params (decode doc).1 = GoString ("1 " +:+ RuneError)
    ∧ Params (decode doc).1 ≠ GoString ("1 " +:+ invalid_string).
Proof.
  eexists. split; [reflexivity|]. split; [reflexivity|]. vm_compute. discriminate.
Qed.

(** C5, amended: for every sec, ptype, fieldIndex and fieldValues,
    UpdateForRemoveFilteredPolicy publishes, on the watcher's channel, the
    encoding of one envelope whose payload is the single string made of the
    decimal fieldIndex, one space, and the fieldValues joined by spaces.
    What is published decodes to the method tag and to the local id, sec,
    ptype and that string, each coerced to valid UTF-8; when the field
    values are valid UTF-8 the decoded payload is exactly the string.  For
    ("p", "p", 1, "data1", "read") the payload is the string
    "1 data1 read". *)
Theorem UpdateForRemoveFilteredPolicy_payload (e : env) (sec ptype : string)
    (fieldIndex : Z) (fieldValues : slice string) (p : proc) :
  l (w p) = false →
  (∃ doc,
     published (trace (UpdateForRemoveFilteredPolicy e sec ptype fieldIndex fieldValues p).2)
       = published (trace p) ++ [(Channel (options (w p)), Encoded doc)]
     ∧ doc = MarshalBinary
               (mkMSG "UpdateForRemoveFilteredPolicy" (LocalID (options (w p))) sec ptype
                  (GoString (itoa fieldIndex +:+ " "
                             +:+ String.concat " " (elems fieldValues))))
     ∧ decode doc
       = (mkMSG "UpdateForRemoveFilteredPolicy" (coerce_utf8 (LocalID (options (w p))))
            (coerce_utf8 sec) (coerce_utf8 ptype)
            (GoString (coerce_utf8 (itoa fieldIndex +:+ " "
                                    +:+ String.concat " " (elems fieldValues)))),
          None)
     ∧ (Forall (λ v, ValidString v = true) (elems fieldValues) →
        Params (decode doc).1
        = GoString (itoa fieldIndex +:+ " " +:+ String.concat " " (elems fieldValues))))
  ∧ (∃ doc,
       published (trace (UpdateForRemoveFilteredPolicy e "p" "p" 1
                           (variadic ["data1"; "read"]) p).2)
         = published (trace p) ++ [(Channel (options (w p)), Encoded doc)]
       ∧ Params (decode doc).1 = GoString "1 data1 read").
Proof.
  intros Hl. unfold UpdateForRemoveFilteredPolicy. split.
  - eexists. split; [by apply publish_MSG_published|].
    rewrite strings_Join_concat. split; [done|].
    rewrite decode_MarshalBinary. split; [done|].
    intros Hv. cbn [fst Params]. change (unmarshal_any (marshal_any (GoString ?s)))
      with (GoString (coerce_utf8 s)). f_equal.
    apply coerce_utf8_ValidString.
    apply ValidString_app; [apply ValidString_itoa|].
    apply ValidString_app; [done|]. by apply ValidString_concat.
  - eexists. split; [by apply publish_MSG_published|]. reflexivity.
Qed.

(** C6 as stated fails on a field value that is not valid UTF-8: for the
    one-byte value FF, UpdateForAddPolicy("p", "p", "\xff") publishes an
    envelope whose decoded field list holds U+FFFD, which is not the
    argument. *)
Lemma UpdateForAddPolicy_invalid_byte :
  ∃ doc,
    published (trace (UpdateForAddPolicy test_env "p" "p" (variadic [invalid_string])
                        test_watcher).2)
      = published (trace test_watcher) ++ [("/casbin", Encoded doc)]
    ∧ field_list (Params (decode doc).1) = Some [RuneError]
    ∧ field_list (Params (decode doc).1) ≠ Some [invalid_string].
Proof.
  eexists. split; [reflexivity|]. split; [reflexivity|]. vm_compute. discriminate.
Qed.

(** C6, amended: for every section, type and field list, UpdateForAddPolicy
    and UpdateForRemovePolicy publish the encoding of one envelope each
    whose payload is the []string of the field values; decoded, the payload
    is the []interface{} of these strings in the same order, each coerced
    to valid UTF-8 (nil when the slice was nil), so the decoded field list
    is the argument list whenever the field values are valid UTF-8.  For
    ("p", "p", "alice", "book1", "write") the decoded list is
    alice, book1, write. *)
Theorem UpdateForAddPolicy_payload (e : env) (sec ptype : string)
    (params : slice string) (p : proc) :
  l (w p) = false →
  (∃ doc,
     published (trace (UpdateForAddPolicy e sec ptype params p).2)
       = published (trace p) ++ [(Channel (options (w p)), Encoded doc)]
     ∧ doc = MarshalBinary (mkMSG "UpdateForAddPolicy" (LocalID (options (w p))) sec ptype
                              (GoStrings params))
     ∧ decode doc
       = (mkMSG "UpdateForAddPolicy" (coerce_utf8 (LocalID (options (w p))))
            (coerce_utf8 sec) (coerce_utf8 ptype) (generic_strings params), None)
     ∧ field_list (Params (decode doc).1) = Some (coerce_utf8 <$> elems params)
     ∧ (Forall (λ v, ValidString v = true) (elems params) →
        field_list (Params (decode doc).1) = Some (elems params)))
  ∧ (∃ doc,
     published (trace (UpdateForRemovePolicy e sec ptype params p).2)
       = published (trace p) ++ [(Channel (options (w p)), Encoded doc)]
     ∧ doc = MarshalBinary (mkMSG "UpdateForRemovePolicy" (LocalID (options (w p))) sec ptype
                              (GoStrings params))
     ∧ decode doc
       = (mkMSG "UpdateForRemovePolicy" (coerce_utf8 (LocalID (options (w p))))
            (coerce_utf8 sec) (coerce_utf8 ptype) (generic_strings params), None)
     ∧ field_list (Params (decode doc).1) = Some (coerce_utf8 <$> elems params)
     ∧ (Forall (λ v, ValidString v = true) (elems params) →
        field_list (Params (decode doc).1) = Some (elems params)))
  ∧ (∃ doc,
       published (trace (UpdateForAddPolicy e "p" "p"
                           (variadic ["alice"; "book1"; "write"]) p).2)
         = published (trace p) ++ [(Channel (options (w p)), Encoded doc)]
       ∧ Params (decode doc).1 = GoIfaces [GoString "alice"; GoString "book1"; GoString "write"]
       ∧ field_list (Params (decode doc).1) = Some ["alice"; "book1"; "write"]).
Proof.
  intros Hl.
  assert (∀ s : slice string,
            field_list (generic_strings s) = Some (coerce_utf8 <$> elems s)) as Hfl.
  { intros [xs|]; [|done]. cbn. induction xs as [|x xs IH]; [done|].
    cbn in *. by rewrite IH. }
  assert (∀ xs : list string,
            Forall (λ v, ValidString v = true) xs → coerce_utf8 <$> xs = xs) as Hid.
  { intros xs Hxs. induction Hxs as [|x xs Hx _ IH]; [done|]. cbn.
    rewrite IH. f_equal. by apply coerce_utf8_ValidString. }
  unfold UpdateForAddPolicy, UpdateForRemovePolicy. split_and!.
  - eexists. split; [by apply publish_MSG_published|]. split; [done|].
    rewrite decode_MarshalBinary. cbn [fst Method ID Sec Ptype Params marshal_any].
    rewrite unmarshal_marshal_strings. split_and!; [done|apply Hfl|].
    intros Hv. by rewrite Hfl, Hid.
  - eexists. split; [by apply publish_MSG_published|]. split; [done|].
    rewrite decode_MarshalBinary. cbn [fst Method ID Sec Ptype Params marshal_any].
    rewrite unmarshal_marshal_strings. split_and!; [done|apply Hfl|].
    intros Hv. by rewrite Hfl, Hid.
  - eexists. split; [by apply publish_MSG_published|]. split; reflexivity.
Qed.

Lemma NewWatcher_test : NewWatcher test_env test_options = (Ret (inl test_watcher), trace test_watcher).
Proof. reflexivity. Qed.

Lemma SetUpdateCallback_run (cb : option func) (p : proc) :
  l (w p) = false →
  SetUpdateCallback cb p =
    (Ret None,
     mkProc (set_callback cb (w p)) (sub p) (ch p) (loop p) (fatal p)
       (trace p ++ [EvLock; EvUnlock])).
Proof.
  intros Hl. destruct_proc p. unfold SetUpdateCallback. unfold_M. cbn.
  unfold emit, set_w; cbn. by rewrite <- app_assoc.
Qed.

Lemma GetWatcherOptions_run (p : proc) :
  l (w p) = false →
  GetWatcherOptions p =
    (Ret (options (w p)),
     mkProc (w p) (sub p) (ch p) (loop p) (fatal p) (trace p ++ [EvLock; EvUnlock])).
Proof.
  intros Hl. destruct_proc p. unfold GetWatcherOptions. unfold_M. cbn.
  unfold emit, set_w; cbn. by rewrite <- app_assoc.
Qed.

Lemma Close_run_open (e : env) (p : proc) :
  l (w p) = false → close (w p) = false →
  Close e p =
    (Ret (),
     mkProc (set_close true (w p)) (sub p) (ch p) (loop p) (fatal p)
       (trace p ++ [EvLock; EvCloseSignal;
                    EvPublish (pubClient (w p)) (Channel (options (w p))) (Text "Close");
                    EvUnlock])).
Proof.
  intros Hl Hc. destruct_proc p. subst. unfold Close. unfold_M. cbn.
  unfold emit, set_w; cbn. by rewrite <- !app_assoc.
Qed.

Lemma Close_run_closed (e : env) (p : proc) :
  l (w p) = false → close (w p) = true →
  Close e p =
    (Panic "close of closed channel",
     mkProc (w p) (sub p) (ch p) (loop p) (fatal p) (trace p ++ [EvLock; EvUnlock])).
Proof.
  intros Hl Hc. destruct_proc p. subst. unfold Close. unfold_M. cbn.
  unfold emit, set_w; cbn. by rewrite <- !app_assoc.
Qed.

Lemma netcall_log_run (e : env) (ev : event) (p : proc) :
  (err ← netcall e ev; log_err err) p =
    (Ret (),
     mkProc (w p) (sub p) (ch p) (loop p) (fatal p)
       (trace p ++ [ev] ++ log_events (net e (length (trace p))))).
Proof.
  destruct p as [x sb c0 lp ft tr]. unfold_M. cbn.
  destruct (net e (length tr)) as [x1|]; cbn; unfold emit; cbn;
    rewrite <- ?app_assoc; reflexivity.
Qed.

Lemma deferred_closes_run (e : env) (p : proc) (c : client) (channel : string) :
  sub p = Some (c, channel) →
  deferred_closes e p =
    (Ret (),
     mkProc (w p) (sub p) (ch p) (loop p) (fatal p)
       (trace p ++ close_events e (length (trace p)) c channel (w p))).
Proof.
  intros Hs. destruct p as [x sb c0 lp ft tr]. cbn in *. subst sb.
  change (deferred_closes e (mkProc x (Some (c, channel)) c0 lp ft tr))
    with (((err ← netcall e (EvPubSubClose c channel); log_err err);;
           (err ← netcall e (EvClientClose RolePub (pubClient x)); log_err err);;
           (err ← netcall e (EvClientClose RoleSub (subClient x)); log_err err))
            (mkProc x (Some (c, channel)) c0 lp ft tr)).
  unfold mbind at 1. unfold M_bind at 1. rewrite netcall_log_run.
  unfold mbind at 1. unfold M_bind at 1. rewrite netcall_log_run.
  rewrite netcall_log_run. cbn [w sub ch loop fatal trace].
  unfold close_events. rewrite !length_app. cbn [length].
  rewrite <- !app_assoc. repeat f_equal; lia.
Qed.

(** ** Steps of the process *)

Lemma call_func_run (f : func) (data : payload) (p : proc) :
  call_func f data p =
    (Ret (), mkProc (w p) (sub p) (ch p) (loop p) (fatal p) (trace p ++ call_events f data)).
Proof.
  destruct p as [x sb c0 lp ft tr]. unfold call_func, call_events. unfold_M. cbn.
  destruct f; cbn; unfold emit; cbn; rewrite <- ?app_assoc; reflexivity.
Qed.

Lemma quiet_log_events (err : option error) :
  Forall (λ ev, quiet ev = true) (log_events err).
Proof. destruct err; repeat constructor. Qed.

Lemma loop_step_transition (e : env) (p : proc) :
  settled p → transition e p LoopStep (loop_step e p).
Proof.
  intros [Hl Hsub]. unfold loop_step.
  destruct (loop p) as [| |m|m|] eqn:Hloop; try apply t_stutter.
  - destruct (ch p) as [|m rest] eqn:Hch; [apply t_stutter|].
    by apply (t_recv e p m rest).
  - destruct (Hsub ltac:(congruence)) as [[c channel] Hs].
    destruct (close (w p)) eqn:Hc.
    + unfold invoke. rewrite (deferred_closes_run e _ c channel) by done.
      by apply (t_select_closed e p m c channel).
    + by apply t_select_default.
  - destruct (Hsub ltac:(congruence)) as [[c channel] Hs].
    destruct (callback (w p)) as [f|] eqn:Hcb.
    + unfold invoke. rewrite call_func_run. unfold set_loop. cbn.
      by apply (t_call e p m f).
    + unfold invoke, defer, panic.
      rewrite (deferred_closes_run e _ c channel) by done.
      cbn. unfold set_fatal, emit. cbn. rewrite <- app_assoc.
      by apply (t_nil_call e p m c channel).
Qed.

Lemma perform_transition (e : env) (a : action) (p : proc) :
  settled p → transition e p a (perform e a p).
Proof.
  intros Hp. pose proof Hp as [Hl Hsub]. unfold perform.
  destruct (fatal p) as [msg|] eqn:Hf; [apply t_stutter|].
  assert (∀ a method sec ptype params,
    transition e p a (invoke (publish_MSG e method sec ptype params) p)) as Hpub.
  { intros. unfold invoke. rewrite publish_MSG_run by done.
    apply t_quiet. repeat constructor. apply quiet_log_events. }
  destruct a as [m| |cb| |sec ptype params|sec ptype params|sec ptype i vs|model| |].
  - apply t_deliver.
  - by apply loop_step_transition.
  - unfold invoke. rewrite SetUpdateCallback_run by done. apply t_set_callback.
  - exact (Hpub _ _ _ _ _).
  - exact (Hpub _ _ _ _ _).
  - exact (Hpub _ _ _ _ _).
  - exact (Hpub _ _ _ _ _).
  - exact (Hpub _ _ _ _ _).
  - unfold invoke. rewrite GetWatcherOptions_run by done.
    apply t_quiet. repeat constructor.
  - unfold invoke. destruct (close (w p)) eqn:Hc.
    + rewrite Close_run_closed by done. unfold set_fatal, emit. cbn.
      rewrite <- app_assoc. by apply t_close_closed.
    + rewrite Close_run_open by done. by apply t_close_open.
Qed.

Lemma transition_settled (e : env) (a : action) (p p' : proc) :
  settled p → transition e p a p' → settled p'.
Proof.
  intros [Hl Hsub] Ht. destruct Ht; split; cbn; try done; intros _;
    try (apply Hsub; congruence); by rewrite ?H1, ?H2.
Qed.

Lemma run_snoc (e : env) (acts : list action) (a : action) (p : proc) :
  run e (acts ++ [a]) p = perform e a (run e acts p).
Proof. unfold run. by rewrite foldl_app. Qed.

Lemma run_app (e : env) (acts1 acts2 : list action) (p : proc) :
  run e (acts1 ++ acts2) p = run e acts2 (run e acts1 p).
Proof. apply foldl_app. Qed.

Lemma run_settled (e : env) (acts : list action) (p : proc) :
  settled p → settled (run e acts p).
Proof.
  intros Hp. induction acts as [|a acts IH] using rev_ind; [done|].
  rewrite run_snoc. eapply transition_settled; [exact IH|]. by apply perform_transition.
Qed.

(** An invariant of the steps holds along every interleaving. *)
Lemma run_invariant (e : env) (I : proc → Prop) :
  (∀ a p p', settled p → I p → transition e p a p' → I p') →
  ∀ acts p, settled p → I p → I (run e acts p).
Proof.
  intros Hstep acts p Hp HI. induction acts as [|a acts IH] using rev_ind; [done|].
  rewrite run_snoc. eapply Hstep; [by apply run_settled|exact IH|].
  apply perform_transition. by apply run_settled.
Qed.

(** ** Construction *)

Lemma NewWatcher_finish_run (e : env) (opt : WatcherOptions) (sc pc : client) :
  let p0 := mkProc (mkWatcher false sc pc zeroOptions false None) None [] NotStarted None
              [EvNew RoleSub sc; EvNew RolePub pc] in
  match net e 4, net e 5 with
  | None, None => NewWatcher_finish e opt p0 = (Ret None, watching opt sc pc)
  | Some x, _ | None, Some x =>
      ∃ p, NewWatcher_finish e opt p0 = (Ret (Some x), p)
           ∧ constructed (trace p) = [(RoleSub, sc); (RolePub, pc)]
  end.
Proof.
  intros p0. subst p0. unfold NewWatcher_finish, Watcher_initConfig, SetUpdateCallback,
    Ping, subscribe, watching. unfold_M.
  destruct opt as [o [s|] [q|] chn ig lid addrs ns mc us mn [f|]]; cbn;
    destruct (net e 4) as [x|]; cbn; try (eexists; split; reflexivity);
    destruct (net e 5) as [y|]; cbn; try (eexists; split; reflexivity); reflexivity.
Qed.

Lemma defaulted_fields (e : env) (opt : WatcherOptions) :
  Options (defaulted e opt) = Options opt
  ∧ SubClient (defaulted e opt) = SubClient opt
  ∧ PubClient (defaulted e opt) = PubClient opt
  ∧ Addresses (defaulted e opt) = Addresses opt
  ∧ Namespace (defaulted e opt) = Namespace opt
  ∧ UseSentinel (defaulted e opt) = UseSentinel opt
  ∧ MasterName (defaulted e opt) = MasterName opt
  ∧ OptionalUpdateCallback (defaulted e opt) = OptionalUpdateCallback opt
  ∧ MaxConnections (defaulted e opt)
    = (if bool_decide (MaxConnections opt = 0)
       then uint_of_Z (int_of_Z (10 * NumCPU e)) else MaxConnections opt)
  ∧ Channel (defaulted e opt) = (if bool_decide (Channel opt = "") then "/casbin" else Channel opt)
  ∧ LocalID (defaulted e opt) = (if bool_decide (LocalID opt = "") then uuid_New e else LocalID opt).
Proof.
  unfold defaulted, initConfig.
  destruct opt as [o s q chn ig lid addrs ns mc us mn f]. cbn.
  destruct (bool_decide (mc = 0)); cbn;
    destruct (bool_decide (lid = "")); cbn;
    destruct (bool_decide (chn = "")); cbn; repeat split.
Qed.

(** The clients [NewWatcher] builds for the options it accepts, by mode. *)
Lemma NewWatcher_cases (e : env) (opt : WatcherOptions) :
  (config_refused opt
   ∧ ∃ err, err ∈ config_errors ∧ NewWatcher e opt = (Ret (inr err), []))
  ∨ (¬ config_refused opt
     ∧ ∃ a0 c,
         head (Addresses opt) = Some a0
         ∧ (if UseSentinel opt
            then c = NewFailoverClient (MasterName opt) (Addresses opt)
                       (int_of_Z (MaxConnections (defaulted e opt)))
            else if bool_decide (1 < length (Addresses opt))%nat
            then c = NewClusterClient (Addresses opt) (Password (Options opt))
                       (int_of_Z (MaxConnections (defaulted e opt)))
            else c = NewClient (mkOptions a0 (Password (Options opt)) 0))
         ∧ match net e 4, net e 5 with
           | None, None =>
               NewWatcher e opt
               = (Ret (inl (watching (defaulted e opt) c c)),
                  trace (watching (defaulted e opt) c c))
           | Some x, _ | None, Some x =>
               ∃ t, NewWatcher e opt = (Ret (inr x), t)
                    ∧ constructed t = [(RoleSub, c); (RolePub, c)]
           end).
Proof.
  unfold NewWatcher, config_refused. fold (defaulted e opt).
  destruct (defaulted_fields e opt) as (HO & _ & _ & HA & _ & HU & HM & _).
  destruct (Addresses opt) as [|a0 rest] eqn:Haddr.
  { left. split; [by left|]. eexists. split; [|reflexivity]. unfold config_errors. rewrite !elem_of_cons. auto. }
  case_bool_decide as Ha0.
  { left. split; [right; left; by subst|]. eexists. split; [|reflexivity]. unfold config_errors. rewrite !elem_of_cons. auto. }
  case_bool_decide as Hns.
  { left. split; [by do 2 right; left|]. eexists. split; [|reflexivity]. unfold config_errors. rewrite !elem_of_cons. auto. }
  destruct (UseSentinel opt && bool_decide (MasterName opt = "")) eqn:Hsent.
  { left. apply andb_true_iff in Hsent as [Hus Hmn%bool_decide_eq_true].
    split; [by do 3 right|]. eexists. split; [|reflexivity]. unfold config_errors. rewrite !elem_of_cons. auto. }
  right. split.
  { intros [?|[Hh|[?|[Hus Hmn]]]]; try done.
    - cbn in Hh. congruence.
    - rewrite Hus, Hmn in Hsent. by rewrite bool_decide_eq_true_2 in Hsent. }
  rewrite HU, HM, HA, HO.
  assert (∀ c : client,
    match net e 4, net e 5 with
    | None, None =>
        match NewWatcher_finish e (defaulted e opt)
                (mkProc (mkWatcher false c c zeroOptions false None) None [] NotStarted None
                   [EvNew RoleSub c; EvNew RolePub c]) with
        | (Ret None, p) => (Ret (inl p), trace p)
        | (Ret (Some err), p) => (Ret (inr err), trace p)
        | (Panic msg, p) => (Panic msg, trace p)
        | (Blocked, p) => (Blocked, trace p)
        end
        = (Ret (inl (watching (defaulted e opt) c c)), trace (watching (defaulted e opt) c c))
    | Some x, _ | None, Some x =>
        ∃ t, match NewWatcher_finish e (defaulted e opt)
                (mkProc (mkWatcher false c c zeroOptions false None) None [] NotStarted None
                   [EvNew RoleSub c; EvNew RolePub c]) with
             | (Ret None, p) => (Ret (inl p), trace p)
             | (Ret (Some err), p) => (Ret (inr err), trace p)
             | (Panic msg, p) => (Panic msg, trace p)
             | (Blocked, p) => (Blocked, trace p)
             end = (Ret (inr x), t)
             ∧ constructed t = [(RoleSub, c); (RolePub, c)]
    end) as Hfin.
  { intros c. pose proof (NewWatcher_finish_run e (defaulted e opt) c c) as H. cbn zeta in H.
    destruct (net e 4) as [x|]; [|destruct (net e 5) as [y|]].
    - destruct H as (p & -> & Hc). by eexists.
    - destruct H as (p & -> & Hc). by eexists.
    - by rewrite H. }
  exists a0. destruct (UseSentinel opt) eqn:Hus; cbv iota.
  - cbn in Hsent. rewrite Hsent. eexists. split; [reflexivity|]. split; [reflexivity|].
    apply Hfin.
  - clear Hsent. case_bool_decide;
      eexists; (split; [reflexivity|]); (split; [reflexivity|]); apply Hfin.
Qed.

Lemma constructed_watching (opt : WatcherOptions) (sc pc : client) :
  constructed (trace (watching opt sc pc)) = [(RoleSub, sc); (RolePub, pc)].
Proof. reflexivity. Qed.

(** Whatever the network does, an accepted option value gets its two
    clients built. *)
Lemma NewWatcher_accepted (e : env) (opt : WatcherOptions) :
  ¬ config_refused opt →
  ∃ r t a0 c,
    NewWatcher e opt = (r, t)
    ∧ constructed t = [(RoleSub, c); (RolePub, c)]
    ∧ head (Addresses opt) = Some a0
    ∧ (if UseSentinel opt
       then c = NewFailoverClient (MasterName opt) (Addresses opt)
                  (int_of_Z (MaxConnections (defaulted e opt)))
       else if bool_decide (1 < length (Addresses opt))%nat
       then c = NewClusterClient (Addresses opt) (Password (Options opt))
                  (int_of_Z (MaxConnections (defaulted e opt)))
       else c = NewClient (mkOptions a0 (Password (Options opt)) 0))
    ∧ (∀ p, r = Ret (inl p) → p = watching (defaulted e opt) c c).
Proof.
  intros Hok. destruct (NewWatcher_cases e opt) as [[Hbad _]|[_ (a0 & c & Ha0 & Hc & Hnet)]];
    [done|].
  destruct (net e 4) as [x|]; [|destruct (net e 5) as [y|]].
  - destruct Hnet as (t & Hrun & Ht). exists (Ret (inr x)), t, a0, c.
    repeat split; try done.
  - destruct Hnet as (t & Hrun & Ht). exists (Ret (inr y)), t, a0, c.
    repeat split; try done.
  - eexists _, _, a0, c. split; [exact Hnet|]. repeat split; try done.
    intros p [= <-]. done.
Qed.

(** C4 as stated fails: an address list holding one empty address is not
    empty, the namespace is given and sentinel mode is off, and yet
    NewWatcher returns the configuration error, before building a
    client. *)
Lemma NewWatcher_refuses_empty_first_address :
  NewWatcher test_env
    (mkWatcherOptions (mkOptions "" "" 0) None None "" false "" [""] "foo" 0 false "" None)
  = (Ret (inr (errors_New "redis: missing redis node address(es)")), [])
  ∧ ¬ (Addresses (mkWatcherOptions (mkOptions "" "" 0) None None "" false "" [""] "foo" 0
                    false "" None) = []
       ∨ Namespace (mkWatcherOptions (mkOptions "" "" 0) None None "" false "" [""] "foo" 0
                      false "" None) = ""
       ∨ (UseSentinel (mkWatcherOptions (mkOptions "" "" 0) None None "" false "" [""] "foo" 0
                         false "" None) = true
          ∧ MasterName (mkWatcherOptions (mkOptions "" "" 0) None None "" false "" [""] "foo" 0
                          false "" None) = "")).
Proof. split; [reflexivity|]. cbn. intros [?|[?|[? _]]]; discriminate. Qed.

(** C4, amended: NewWatcher returns a configuration error, with nothing
    built and no network call made, exactly when the address list is empty
    or its first address is the empty string, the namespace is empty, or
    sentinel mode is on without a master name; the error is one of the three
    configuration errors.  Otherwise construction proceeds: both clients are
    built. *)
Theorem NewWatcher_config_error (e : env) (opt : WatcherOptions) :
  (config_refused opt ↔ ∃ err, NewWatcher e opt = (Ret (inr err), []))
  ∧ (∀ err, NewWatcher e opt = (Ret (inr err), []) → err ∈ config_errors)
  ∧ (¬ config_refused opt →
     ∃ r t c, NewWatcher e opt = (r, t) ∧ constructed t = [(RoleSub, c); (RolePub, c)]).
Proof.
  assert (¬ config_refused opt → ∀ r, NewWatcher e opt ≠ (r, [])) as Hne.
  { intros Hok r Hr. destruct (NewWatcher_accepted e opt Hok) as (r' & t & a0 & c & Hrun & Ht & _).
    rewrite Hrun in Hr. injection Hr as _ ->. discriminate. }
  destruct (NewWatcher_cases e opt) as [[Hbad (err & Herr & Hrun)]|[Hok _]].
  - repeat split; try done.
    + intros _. by exists err.
    + intros err' Hrun'. rewrite Hrun in Hrun'. by injection Hrun' as <-.
  - repeat split.
    + done.
    + intros [err Hrun]. by destruct (Hne Hok _ Hrun).
    + intros err Hrun. by destruct (Hne Hok _ Hrun).
    + intros _. destruct (NewWatcher_accepted e opt Hok) as (r & t & a0 & c & Hrun & Ht & _).
      by exists r, t, c.
Qed.

Lemma int_uint_small (z : Z) :
  (0 ≤ z < 2 ^ 63)%Z → int_of_Z (uint_of_Z (int_of_Z z)) = z.
Proof.
  intros Hz. unfold int_of_Z, uint_of_Z.
  rewrite (Z.mod_small (z + 2 ^ 63)) by lia.
  replace (z + 2 ^ 63 - 2 ^ 63) with z by lia.
  rewrite (Z.mod_small z) by lia.
  rewrite (Z.mod_small (z + 2 ^ 63)) by lia. lia.
Qed.

(** C9: when NewWatcher is called with MaxConnections = 0 and options it
    accepts (on a machine whose CPU count, times ten, fits an int), it
    builds one client for the subscribe side and one for the publish side,
    each with a pool budget of 10 * NumCPU, in every mode: in sentinel
    and cluster mode the number is passed as PoolSize, in single-node mode
    no PoolSize is passed and the redis client's own default is that number.
    When no client is injected through the options these two are the
    watcher's connections. *)
Theorem NewWatcher_pool_budget (e : env) (opt : WatcherOptions) :
  MaxConnections opt = 0 → (1 ≤ NumCPU e)%Z → (10 * NumCPU e < 2 ^ 63)%Z →
  ¬ config_refused opt →
  ∃ r t c,
    NewWatcher e opt = (r, t)
    ∧ constructed t = [(RoleSub, c); (RolePub, c)]
    ∧ pool_budget e c = Some (10 * NumCPU e)
    ∧ (UseSentinel opt = true →
       c = NewFailoverClient (MasterName opt) (Addresses opt) (10 * NumCPU e))
    ∧ (UseSentinel opt = false → (1 < length (Addresses opt))%nat →
       c = NewClusterClient (Addresses opt) (Password (Options opt)) (10 * NumCPU e))
    ∧ (UseSentinel opt = false → length (Addresses opt) = 1%nat →
       ∃ a0, Addresses opt = [a0] ∧ c = NewClient (mkOptions a0 (Password (Options opt)) 0))
    ∧ (∀ p, r = Ret (inl p) → SubClient opt = None → PubClient opt = None →
       subClient (w p) = c ∧ pubClient (w p) = c).
Proof.
  intros Hmc Hcpu Hfit Hok.
  destruct (NewWatcher_accepted e opt Hok) as (r & t & a0 & c & Hrun & Ht & Ha0 & Hc & Hp).
  destruct (defaulted_fields e opt) as (_ & HS & HP & _ & _ & _ & _ & _ & HMC & _).
  rewrite bool_decide_eq_true_2 in HMC by done.
  rewrite HMC, int_uint_small in Hc by lia.
  exists r, t, c. split; [done|]. split; [done|].
  assert (10 * NumCPU e ≠ 0) as Hnz by lia.
  assert (∀ p, r = Ret (inl p) → SubClient opt = None → PubClient opt = None →
          subClient (w p) = c ∧ pubClient (w p) = c) as Hw.
  { intros p Hr Hs Hq. rewrite (Hp p Hr). unfold watching. cbn. by rewrite HS, HP, Hs, Hq. }
  destruct (UseSentinel opt) eqn:Hus; [|case_bool_decide as Hlen]; subst c; cbn.
  - rewrite bool_decide_eq_false_2 by done. split_and!; try done.
  - rewrite bool_decide_eq_false_2 by done. split_and!; try done.
    intros _ Hl1. lia.
  - split_and!; try done.
    intros _ Hl1. exists a0. split; [|done].
    destruct (Addresses opt) as [|x [|y rest]]; cbn in *; try done; congruence.
Qed.

Lemma NewWatcher_built (e : env) (opt : WatcherOptions) (p0 : proc) (t0 : list event) :
  NewWatcher e opt = (Ret (inl p0), t0) →
  ∃ c, p0 = watching (defaulted e opt) c c ∧ t0 = trace p0.
Proof.
  intros Hrun.
  destruct (NewWatcher_cases e opt) as [(_ & err & _ & Herr)|(_ & a0 & c & _ & _ & Hnet)].
  { rewrite Herr in Hrun. discriminate. }
  exists c. destruct (net e 4) as [x|]; [|destruct (net e 5) as [y|]].
  - destruct Hnet as (t & Ht & _). rewrite Ht in Hrun. discriminate.
  - destruct Hnet as (t & Ht & _). rewrite Ht in Hrun. discriminate.
  - rewrite Hnet in Hrun. by injection Hrun as <- <-.
Qed.

Lemma watching_settled (opt : WatcherOptions) (sc pc : client) : settled (watching opt sc pc).
Proof. split; [done|]. intros _. by eexists. Qed.

(** ** The shutdown signal *)

Lemma closed_stays_closed (e : env) (acts : list action) (p : proc) :
  settled p → close (w p) = true → close (w (run e acts p)) = true.
Proof.
  apply (run_invariant e (λ q, close (w q) = true)).
  intros a q q' _ Hq Ht. destruct Ht; cbn; try done.
Qed.

Lemma scan_app (ph : phase) (t1 t2 : list event) :
  scan ph (t1 ++ t2) = scan (scan ph t1) t2.
Proof. apply foldl_app. Qed.

Lemma scan_inert (ph : phase) (t : list event) :
  Forall (λ ev, inert ev = true) t → scan ph t = ph.
Proof.
  induction 1 as [|ev t Hev _ IH]; [done|]. cbn.
  replace (phase_step ph ev) with ph; [exact IH|]. by destruct ph, ev.
Qed.

Lemma quiet_inert (t : list event) :
  Forall (λ ev, quiet ev = true) t → Forall (λ ev, inert ev = true) t.
Proof. intros H. eapply Forall_impl; [exact H|]. by intros []. Qed.

Lemma inert_log_events (err : option error) :
  Forall (λ ev, inert ev = true) (log_events err).
Proof. destruct err; repeat constructor. Qed.

Lemma inert_close_events (e : env) (n : nat) (c : client) (channel : string) (x : Watcher) :
  Forall (λ ev, inert ev = true) (close_events e n c channel x).
Proof.
  unfold close_events. cbv zeta.
  repeat (apply Forall_app; split); try apply inert_log_events; by repeat constructor.
Qed.

Lemma scan_call_events (ph : phase) (f : func) (data : payload) :
  scan ph (call_events f data) = phase_step ph (EvCall f data).
Proof. destruct f; cbn; by destruct ph. Qed.

Lemma rank_scan (ph : phase) (t : list event) : (rank ph ≤ rank (scan ph t))%nat.
Proof.
  revert ph. induction t as [|ev t IH]; intros ph; [done|]. cbn.
  etrans; [|apply IH]. destruct ph, ev; cbn; lia.
Qed.

Lemma scan_Bad (t : list event) : scan Bad t = Bad.
Proof. induction t as [|ev t IH]; [done|]. cbn. by destruct ev. Qed.

Lemma scan_call_after_late (ph : phase) (t : list event) (f : func) (d : payload) :
  (2 ≤ rank ph)%nat → EvCall f d ∈ t → scan ph t = Bad.
Proof.
  intros Hph Hin. revert ph Hph. induction t as [|ev t IH]; intros ph Hph.
  { by apply elem_of_nil in Hin. }
  apply elem_of_cons in Hin as [<-|Hin]; cbn.
  - destruct ph; cbn in *; try lia; apply scan_Bad.
  - apply IH; [done|]. destruct ph, ev; cbn in *; lia.
Qed.

(** A call that follows a receipt that follows the signal makes the trace bad. *)
Lemma scan_late_call (t1 t2 t3 : list event) (m : payload) (f : func) (d : payload) :
  EvCall f d ∈ t3 →
  scan Open (t1 ++ EvCloseSignal :: t2 ++ EvRecv m :: t3) = Bad.
Proof.
  intros Hin. rewrite scan_app. cbn. fold (scan (phase_step (scan Open t1) EvCloseSignal)).
  rewrite scan_app. cbn.
  fold (scan (phase_step (scan (phase_step (scan Open t1) EvCloseSignal) t2) (EvRecv m))).
  apply (scan_call_after_late _ _ f d); [|done].
  pose proof (rank_scan (phase_step (scan Open t1) EvCloseSignal) t2) as H2.
  assert (1 ≤ rank (phase_step (scan Open t1) EvCloseSignal))%nat as H1.
  { destruct (scan Open t1); cbn; lia. }
  destruct (scan (phase_step (scan Open t1) EvCloseSignal) t2); cbn in *; lia.
Qed.

Lemma phase_inv_step (e : env) (a : action) (p p' : proc) :
  settled p → phase_inv p → transition e p a p' → phase_inv p'.
Proof.
  intros _ Hp Ht. unfold phase_inv in *.
  destruct Ht; cbn [trace w loop set_ch set_loop set_callback set_close close]; try done;
    rewrite ?scan_app.
  - by destruct (scan Open (trace p)).
  - rewrite scan_inert by by apply quiet_inert. done.
  - destruct (scan Open (trace p)); cbn; try done. by destruct Hp.
  - cbn. by destruct (scan Open (trace p)).
  - cbn. destruct (scan Open (trace p)); cbn; eauto.
    destruct Hp as [_ [?|[? ?]]]; congruence.
  - destruct (scan Open (trace p)); try done. destruct Hp as [? _]. congruence.
  - rewrite scan_inert by apply inert_close_events.
    destruct (scan Open (trace p)); try done. destruct Hp as [? _]. auto.
  - rewrite scan_call_events. destruct (scan Open (trace p)); cbn; try done.
    destruct Hp as [_ [?|[? ?]]]; congruence.
  - rewrite (scan_inert _ (close_events _ _ _ _ _)) by apply inert_close_events.
    cbn. destruct (scan Open (trace p)); cbn; try done.
    destruct Hp as [? _]. auto.
Qed.

Lemma watching_phase_inv (opt : WatcherOptions) (sc pc : client) : phase_inv (watching opt sc pc).
Proof. exact I. Qed.

Lemma loop_exits_on_signal (e : env) (p : proc) (m : payload) (rest : list payload)
    (c : client) (channel : string) :
  fatal p = None → close (w p) = true → loop p = Receiving → ch p = m :: rest →
  sub p = Some (c, channel) →
  run e [LoopStep; LoopStep] p
  = mkProc (w p) (sub p) rest Exited None
      (trace p ++ EvRecv m :: close_events e (S (length (trace p))) c channel (w p)).
Proof.
  intros Hf Hc Hl Hch Hs. destruct p as [x sb c0 lp ft tr]. cbn in *. subst.
  unfold perform, loop_step, invoke. cbn. rewrite Hc.
  rewrite (deferred_closes_run e _ c channel) by done. cbn.
  rewrite length_app, Nat.add_1_r, <- app_assoc. done.
Qed.

(** C8: take a watcher built by NewWatcher and any interleaving of
    deliveries, goroutine steps and method calls.  Whenever the trace shows
    the shutdown signal being set and, later, a message being received, no
    callback is called after that receipt.  And in a state where the signal
    is set and the goroutine waits for a message, the next message is
    received, the select finds the signal, and the goroutine leaves through
    its deferred closes without calling the callback. *)
Theorem no_callback_after_signal (e : env) (opt : WatcherOptions) (p0 : proc)
    (t0 : list event) (acts : list action) :
  NewWatcher e opt = (Ret (inl p0), t0) →
  (∀ t1 t2 t3 m,
     trace (run e acts p0) = t1 ++ EvCloseSignal :: t2 ++ EvRecv m :: t3 →
     ∀ f d, EvCall f d ∉ t3)
  ∧ (∀ m rest,
       fatal (run e acts p0) = None →
       close (w (run e acts p0)) = true →
       loop (run e acts p0) = Receiving →
       ch (run e acts p0) = m :: rest →
       ∃ c channel,
         sub (run e acts p0) = Some (c, channel)
         ∧ run e [LoopStep; LoopStep] (run e acts p0)
           = mkProc (w (run e acts p0)) (sub (run e acts p0)) rest Exited None
               (trace (run e acts p0) ++ EvRecv m ::
                  close_events e (S (length (trace (run e acts p0)))) c channel
                    (w (run e acts p0)))).
Proof.
  intros Hnew. destruct (NewWatcher_built e opt p0 t0 Hnew) as (c0 & -> & _).
  pose proof (run_settled e acts _ (watching_settled (defaulted e opt) c0 c0)) as Hset.
  split.
  - intros t1 t2 t3 m Htr f d Hin.
    pose proof (run_invariant e phase_inv (phase_inv_step e) acts _
                  (watching_settled (defaulted e opt) c0 c0)
                  (watching_phase_inv (defaulted e opt) c0 c0)) as Hinv.
    unfold phase_inv in Hinv. rewrite Htr, (scan_late_call t1 t2 t3 m f d Hin) in Hinv. done.
  - intros m rest Hf Hc Hl Hch.
    destruct Hset as [Hmu Hsub]. destruct (Hsub ltac:(congruence)) as [[c channel] Hs].
    exists c, channel. split; [done|]. by apply loop_exits_on_signal.
Qed.

(** ** Close *)

(** C1 as stated fails: on the watcher of the tests the first Close returns
    and the second one panics. *)
Lemma second_Close_panics :
  (Close test_env test_watcher).1 = Ret ()
  ∧ (Close test_env (Close test_env test_watcher).2).1 = Panic "close of closed channel".
Proof. split; reflexivity. Qed.

(** C1, amended: Close is not idempotent.  On a watcher whose signal is not
    yet set, Close returns after setting the signal and publishing the text
    Close on the watcher's channel, under the mutex.  Any later Close on
    the same watcher, whatever happened in between, panics on closing the
    closed signal channel: it does not wait, it takes and releases the
    mutex, and it neither publishes nor closes a connection. *)
Theorem Close_twice (e : env) (acts : list action) (p : proc) :
  settled p → close (w p) = false →
  Close e p
  = (Ret (),
     mkProc (set_close true (w p)) (sub p) (ch p) (loop p) (fatal p)
       (trace p ++ [EvLock; EvCloseSignal;
                    EvPublish (pubClient (w p)) (Channel (options (w p))) (Text "Close");
                    EvUnlock]))
  ∧ Close e (run e acts (Close e p).2)
    = (Panic "close of closed channel",
       mkProc (w (run e acts (Close e p).2)) (sub (run e acts (Close e p).2))
         (ch (run e acts (Close e p).2)) (loop (run e acts (Close e p).2))
         (fatal (run e acts (Close e p).2))
         (trace (run e acts (Close e p).2) ++ [EvLock; EvUnlock])).
Proof.
  intros Hp Hc. pose proof Hp as [Hl Hsub].
  rewrite Close_run_open by done. split; [done|]. cbn [snd].
  set (p1 := mkProc _ _ _ _ _ _).
  assert (settled p1) as Hp1 by (split; [done|exact Hsub]).
  apply Close_run_closed.
  - by apply run_settled.
  - by apply closed_stays_closed.
Qed.

(** ** The goroutine *)

Lemma loop_passes_one (e : env) (p : proc) (m : payload) (rest : list payload) (f : func) :
  fatal p = None → loop p = Receiving → ch p = m :: rest →
  close (w p) = false → callback (w p) = Some f →
  run e [LoopStep; LoopStep; LoopStep] p
  = mkProc (w p) (sub p) rest Receiving None (trace p ++ EvRecv m :: call_events f m).
Proof.
  intros Hf Hl Hch Hc Hcb. destruct p as [x sb c0 lp ft tr]. cbn in *. subst.
  unfold perform, loop_step, invoke. cbn. rewrite Hc. cbn. rewrite Hcb.
  rewrite call_func_run. cbn. by rewrite <- app_assoc.
Qed.

(** C3 as stated fails: on the watcher of the tests, with a callback set,
    an empty payload is handed to the callback like any other; nothing is
    logged and nothing is dropped. *)
Lemma loop_passes_empty_payload :
  trace (run test_env
           [CallSetUpdateCallback (Some (UserFunc 1)); Deliver (Text "");
            LoopStep; LoopStep; LoopStep] test_watcher)
  = trace test_watcher ++ [EvLock; EvUnlock; EvRecv (Text ""); EvCall (UserFunc 1) (Text "")]
  ∧ logged (trace (run test_env
           [CallSetUpdateCallback (Some (UserFunc 1)); Deliver (Text "");
            LoopStep; LoopStep; LoopStep] test_watcher)) = [].
Proof. split; reflexivity. Qed.

(** C3, amended: while the shutdown signal is not set, the goroutine hands
    every message it receives to the registered callback, synchronously, in
    the order of receipt and once each, with the payload as it came: there
    is no decoding, so an empty or malformed payload is passed on like any
    other, nothing is logged by the loop and nothing is dropped; the watcher
    is left as it was. *)
Theorem loop_passes_every_payload (e : env) (msgs : list payload) (f : func) (p : proc) :
  fatal p = None → loop p = Receiving → ch p = msgs →
  close (w p) = false → callback (w p) = Some f →
  run e (flat_map (λ _, [LoopStep; LoopStep; LoopStep]) msgs) p
  = mkProc (w p) (sub p) [] Receiving None
      (trace p ++ flat_map (λ m, EvRecv m :: call_events f m) msgs).
Proof.
  revert p. induction msgs as [|m msgs IH]; intros p Hf Hl Hch Hc Hcb.
  - destruct p as [x sb c0 lp ft tr]. cbn in *. subst. by rewrite app_nil_r.
  - change (flat_map (λ _ : payload, [LoopStep; LoopStep; LoopStep]) (m :: msgs))
      with ([LoopStep; LoopStep; LoopStep]
            ++ flat_map (λ _ : payload, [LoopStep; LoopStep; LoopStep]) msgs).
    rewrite run_app, (loop_passes_one e p m msgs f) by done.
    rewrite IH by done. cbn. by rewrite <- app_assoc.
Qed.

(** C7: when the goroutine leaves on the shutdown signal, its deferred
    function closes three things in this order: the subscription opened by
    subscribe (sub), the client in pubClient, the client in subClient, the
    one the subscription was opened on.  The error of each close, if any, is
    logged right after it; none is propagated: the goroutine ends without a
    panic and the watcher is left as it was. *)
Theorem loop_exit_closes_in_order (e : env) (p : proc) (m : payload) :
  settled p → loop p = Selecting m → close (w p) = true →
  ∃ c channel evs,
    sub p = Some (c, channel)
    ∧ loop_step e p = mkProc (w p) (sub p) (ch p) Exited (fatal p) (trace p ++ evs)
    ∧ filter (λ ev, is_close ev = true) evs
      = [EvPubSubClose c channel;
         EvClientClose RolePub (pubClient (w p));
         EvClientClose RoleSub (subClient (w p))]
    ∧ (∃ e1 e2 e3,
         evs = [EvPubSubClose c channel] ++ log_events e1
               ++ [EvClientClose RolePub (pubClient (w p))] ++ log_events e2
               ++ [EvClientClose RoleSub (subClient (w p))] ++ log_events e3
         ∧ e1 = net e (length (trace p))
         ∧ e2 = net e (length (trace p ++ [EvPubSubClose c channel] ++ log_events e1))
         ∧ e3 = net e (length (trace p ++ [EvPubSubClose c channel] ++ log_events e1
                                 ++ [EvClientClose RolePub (pubClient (w p))] ++ log_events e2)))
    ∧ (∀ msg, EvPanic msg ∉ evs).
Proof.
  intros [Hl Hsub] Hloop Hc. destruct (Hsub ltac:(congruence)) as [[c channel] Hs].
  exists c, channel, (close_events e (length (trace p)) c channel (w p)).
  split; [done|]. split.
  { unfold loop_step. rewrite Hloop, Hc. unfold invoke.
    by rewrite (deferred_closes_run e _ c channel). }
  unfold close_events. cbv zeta.
  set (e1 := net e (length (trace p))).
  set (e2 := net e (length (trace p) + length ([EvPubSubClose c channel] ++ log_events e1))).
  set (e3 := net e _).
  split; [by destruct e1, e2, e3|]. split.
  - exists e1, e2, e3. split; [by rewrite <- !app_assoc|]. split; [done|].
    split; subst e2 e3; f_equal; rewrite !length_app; cbn; lia.
  - intros msg Hin.
    destruct e1, e2, e3; cbn in Hin;
      repeat (apply elem_of_cons in Hin as [Hin|Hin]; [discriminate|]);
      by apply elem_of_nil in Hin.
Qed.

(** ** The callback *)

Lemma quiet_no_nil_panic (t : list event) :
  Forall (λ ev, quiet ev = true) t → Forall (λ ev, ev ≠ EvPanic nil_deref) t.
Proof. intros H. eapply Forall_impl; [exact H|]. by intros []. Qed.

Lemma close_events_no_nil_panic (e : env) (n : nat) (c : client) (channel : string)
    (x : Watcher) :
  Forall (λ ev, ev ≠ EvPanic nil_deref) (close_events e n c channel x).
Proof.
  unfold close_events. cbv zeta.
  repeat (apply Forall_app; split);
    try (apply quiet_no_nil_panic, quiet_log_events); by repeat constructor.
Qed.

Lemma callback_inv_step (e : env) (a : action) (p p' : proc) :
  (∀ cb, a = CallSetUpdateCallback cb → cb ≠ None) →
  callback_inv p → transition e p a p' → callback_inv p'.
Proof.
  intros Ha [Hcb Htr] Ht. unfold callback_inv.
  inversion Ht; subst; cbn [w trace callback set_ch set_loop set_callback set_close];
    try done.
  - split; [|apply Forall_app; split; [done|by repeat constructor]].
    destruct cb as [f|]; [by eexists|]. by destruct (Ha None).
  - split; [done|]. apply Forall_app. split; [done|]. by apply quiet_no_nil_panic.
  - split; [done|]. apply Forall_app. split; [done|]. by repeat constructor.
  - split; [done|]. apply Forall_app. split; [done|]. by repeat constructor.
  - split; [done|]. apply Forall_app. split; [done|]. by repeat constructor.
  - split; [done|]. apply Forall_app. split; [done|]. apply close_events_no_nil_panic.
  - split; [done|]. apply Forall_app. split; [done|].
    unfold call_events. destruct f; by repeat constructor.
  - destruct Hcb as [f Hf]. congruence.
Qed.

Lemma run_callback_inv (e : env) (acts : list action) (p : proc) :
  settled p → callback_inv p →
  (∀ cb, CallSetUpdateCallback cb ∈ acts → cb ≠ None) →
  callback_inv (run e acts p).
Proof.
  intros Hp Hinv. induction acts as [|a acts IH] using rev_ind; intros Hacts; [done|].
  rewrite run_snoc. apply (callback_inv_step e a (run e acts p)).
  - intros cb ->. apply Hacts. apply elem_of_app. right. by apply list_elem_of_singleton.
  - apply IH. intros cb Hin. apply Hacts. apply elem_of_app. by left.
  - apply perform_transition. by apply run_settled.
Qed.

Lemma loop_step_nil_call (e : env) (p : proc) (m : payload) (c : client) (channel : string) :
  loop p = Calling m → callback (w p) = None → sub p = Some (c, channel) →
  loop_step e p
  = mkProc (w p) (sub p) (ch p) Exited (Some nil_deref)
      (trace p ++ close_events e (length (trace p)) c channel (w p) ++ [EvPanic nil_deref]).
Proof.
  intros Hloop Hcb Hs. unfold loop_step. rewrite Hloop, Hcb.
  unfold invoke, defer, panic. rewrite (deferred_closes_run e _ c channel) by done.
  cbn. unfold set_fatal, emit. cbn. by rewrite <- app_assoc.
Qed.

Lemma nil_callback_crashes (e : env) (p : proc) (m : payload) :
  settled p → fatal p = None → loop p = Receiving → ch p = [] → close (w p) = false →
  fatal (run e [CallSetUpdateCallback None; Deliver m; LoopStep; LoopStep; LoopStep] p)
  = Some nil_deref
  ∧ EvPanic nil_deref
    ∈ trace (run e [CallSetUpdateCallback None; Deliver m; LoopStep; LoopStep; LoopStep] p).
Proof.
  intros [Hl Hsub] Hf Hloop Hch Hc.
  destruct (Hsub ltac:(congruence)) as [[c channel] Hs].
  assert (run e [CallSetUpdateCallback None; Deliver m; LoopStep; LoopStep] p
          = mkProc (set_callback None (w p)) (sub p) [] (Calling m) None
              (trace p ++ [EvLock; EvUnlock; EvRecv m])) as H4.
  { destruct p as [[lk sc pc o cl cb] sb c0 lp ft tr]. cbn in *. subst.
    unfold perform, loop_step, invoke. cbn [run foldl fatal].
    rewrite SetUpdateCallback_run by done. cbn.
    unfold set_loop, emit, set_ch. cbn. by rewrite <- app_assoc. }
  change [CallSetUpdateCallback None; Deliver m; LoopStep; LoopStep; LoopStep]
    with ([CallSetUpdateCallback None; Deliver m; LoopStep; LoopStep] ++ [LoopStep]).
  rewrite run_app, H4. cbn [run foldl]. unfold perform. cbn [fatal].
  rewrite (loop_step_nil_call e _ m c channel) by done. cbn [fatal trace].
  split; [done|]. rewrite !elem_of_app. right. right. by apply list_elem_of_singleton.
Qed.

(** C10: SetUpdateCallback(f) returns a nil error and stores f as the
    callback, whatever f is, nil included, between taking and releasing the
    mutex.  A watcher built by NewWatcher has a callback; as long as no
    SetUpdateCallback call passes nil it keeps one and the goroutine never
    calls a nil callback; after SetUpdateCallback(nil) the next message
    makes the goroutine call nil, which ends the process with a panic. *)
Theorem SetUpdateCallback_replaces (e : env) (opt : WatcherOptions) (p0 : proc)
    (t0 : list event) (acts : list action) :
  NewWatcher e opt = (Ret (inl p0), t0) →
  is_Some (callback (w p0))
  ∧ (∀ cb,
       SetUpdateCallback cb (run e acts p0)
       = (Ret None,
          mkProc (set_callback cb (w (run e acts p0))) (sub (run e acts p0))
            (ch (run e acts p0)) (loop (run e acts p0)) (fatal (run e acts p0))
            (trace (run e acts p0) ++ [EvLock; EvUnlock])))
  ∧ ((∀ cb, CallSetUpdateCallback cb ∈ acts → cb ≠ None) →
     is_Some (callback (w (run e acts p0)))
     ∧ EvPanic nil_deref ∉ trace (run e acts p0))
  ∧ (∀ m,
       fatal (run e [CallSetUpdateCallback None; Deliver m; LoopStep; LoopStep; LoopStep] p0)
       = Some nil_deref
       ∧ EvPanic nil_deref
         ∈ trace (run e [CallSetUpdateCallback None; Deliver m; LoopStep; LoopStep; LoopStep]
                    p0)).
Proof.
  intros Hnew. destruct (NewWatcher_built e opt p0 t0 Hnew) as (c0 & -> & _).
  pose proof (watching_settled (defaulted e opt) c0 c0) as Hset.
  split_and!.
  - by eexists.
  - intros cb. apply SetUpdateCallback_run. by apply (run_settled e acts _ Hset).
  - intros Hacts.
    destruct (run_callback_inv e acts _ Hset) as [Hcb Htr]; [|done|].
    { split; [by eexists|]. by repeat constructor. }
    split; [done|]. intros Hin. rewrite Forall_forall in Htr. by apply (Htr _ Hin).
  - intros m. by apply nil_callback_crashes.
Qed.

(** ** The theorems at the set-up of the tests *)

Lemma test_options_accepted : ¬ config_refused test_options.
Proof. intros [H|[H|[H|[H _]]]]; discriminate H. Defined.

Lemma test_watcher_settled : settled test_watcher.
Proof. split; [reflexivity|]. intros _. eexists. reflexivity. Defined.

Lemma UpdateForRemoveFilteredPolicy_payload_witness :
  l (w test_watcher) = false
  ∧ Forall (λ v, ValidString v = true) (elems (variadic ["data1"; "read"]))
  ∧ ∃ doc,
      published (trace (UpdateForRemoveFilteredPolicy test_env "p" "p" 1
                          (variadic ["data1"; "read"]) test_watcher).2)
        = published (trace test_watcher) ++ [(Channel (options (w test_watcher)), Encoded doc)]
      ∧ Params (decode doc).1
        = GoString (itoa 1 +:+ " " +:+ String.concat " " (elems (variadic ["data1"; "read"]))).
Proof.
  split; [reflexivity|]. split; [repeat constructor|].
  destruct (UpdateForRemoveFilteredPolicy_payload test_env "p" "p" 1
              (variadic ["data1"; "read"]) test_watcher eq_refl)
    as [(doc & Hpub & _ & _ & Hexact) _].
  exists doc. split; [exact Hpub|]. apply Hexact. repeat constructor.
Defined.

Lemma UpdateForAddPolicy_payload_witness :
  l (w test_watcher) = false
  ∧ Forall (λ v, ValidString v = true) (elems (variadic ["alice"; "book1"; "write"]))
  ∧ ∃ doc,
      published (trace (UpdateForAddPolicy test_env "p" "p"
                          (variadic ["alice"; "book1"; "write"]) test_watcher).2)
        = published (trace test_watcher) ++ [(Channel (options (w test_watcher)), Encoded doc)]
      ∧ field_list (Params (decode doc).1) = Some (elems (variadic ["alice"; "book1"; "write"])).
Proof.
  split; [reflexivity|]. split; [repeat constructor|].
  destruct (UpdateForAddPolicy_payload test_env "p" "p" (variadic ["alice"; "book1"; "write"])
              test_watcher eq_refl)
    as [(doc & Hpub & _ & _ & _ & Hexact) _].
  exists doc. split; [exact Hpub|]. apply Hexact. repeat constructor.
Defined.

Lemma NewWatcher_config_error_witness :
  (config_refused test_options
   ↔ ∃ err, NewWatcher test_env test_options = (Ret (inr err), []))
  ∧ (∀ err, NewWatcher test_env test_options = (Ret (inr err), []) → err ∈ config_errors)
  ∧ (¬ config_refused test_options →
     ∃ r t c, NewWatcher test_env test_options = (r, t)
              ∧ constructed t = [(RoleSub, c); (RolePub, c)]).
Proof. apply (NewWatcher_config_error test_env test_options). Defined.

Lemma NewWatcher_pool_budget_witness :
  MaxConnections test_options = 0 ∧ (1 ≤ NumCPU test_env)%Z
  ∧ (10 * NumCPU test_env < 2 ^ 63)%Z ∧ ¬ config_refused test_options
  ∧ ∃ r t c,
      NewWatcher test_env test_options = (r, t)
      ∧ constructed t = [(RoleSub, c); (RolePub, c)]
      ∧ pool_budget test_env c = Some (10 * NumCPU test_env)
      ∧ (UseSentinel test_options = true →
         c = NewFailoverClient (MasterName test_options) (Addresses test_options)
               (10 * NumCPU test_env))
      ∧ (UseSentinel test_options = false → (1 < length (Addresses test_options))%nat →
         c = NewClusterClient (Addresses test_options) (Password (Options test_options))
               (10 * NumCPU test_env))
      ∧ (UseSentinel test_options = false → length (Addresses test_options) = 1%nat →
         ∃ a0, Addresses test_options = [a0]
               ∧ c = NewClient (mkOptions a0 (Password (Options test_options)) 0))
      ∧ (∀ p, r = Ret (inl p) → SubClient test_options = None → PubClient test_options = None →
         subClient (w p) = c ∧ pubClient (w p) = c).
Proof.
  split; [reflexivity|]. split; [cbn; lia|]. split; [cbn; lia|].
  split; [exact test_options_accepted|].
  apply (NewWatcher_pool_budget test_env test_options);
    [reflexivity | cbn; lia | cbn; lia | exact test_options_accepted].
Defined.

Lemma Close_twice_witness :
  settled test_watcher ∧ close (w test_watcher) = false
  ∧ Close test_env (run test_env [Deliver (Text "Close"); LoopStep; LoopStep]
                      (Close test_env test_watcher).2)
    = (Panic "close of closed channel",
       mkProc
         (w (run test_env [Deliver (Text "Close"); LoopStep; LoopStep]
               (Close test_env test_watcher).2))
         (sub (run test_env [Deliver (Text "Close"); LoopStep; LoopStep]
                 (Close test_env test_watcher).2))
         (ch (run test_env [Deliver (Text "Close"); LoopStep; LoopStep]
                (Close test_env test_watcher).2))
         (loop (run test_env [Deliver (Text "Close"); LoopStep; LoopStep]
                  (Close test_env test_watcher).2))
         (fatal (run test_env [Deliver (Text "Close"); LoopStep; LoopStep]
                   (Close test_env test_watcher).2))
         (trace (run test_env [Deliver (Text "Close"); LoopStep; LoopStep]
                   (Close test_env test_watcher).2) ++ [EvLock; EvUnlock])).
Proof.
  split; [exact test_watcher_settled|]. split; [reflexivity|].
  apply (Close_twice test_env [Deliver (Text "Close"); LoopStep; LoopStep] test_watcher);
    [exact test_watcher_settled | reflexivity].
Defined.

Lemma loop_passes_every_payload_witness :
  fatal (set_ch [Text ""; Text "Close"; Text "{"] test_watcher) = None
  ∧ loop (set_ch [Text ""; Text "Close"; Text "{"] test_watcher) = Receiving
  ∧ close (w (set_ch [Text ""; Text "Close"; Text "{"] test_watcher)) = false
  ∧ callback (w (set_ch [Text ""; Text "Close"; Text "{"] test_watcher)) = Some CallbackNotSet
  ∧ run test_env
      (flat_map (λ _, [LoopStep; LoopStep; LoopStep]) [Text ""; Text "Close"; Text "{"])
      (set_ch [Text ""; Text "Close"; Text "{"] test_watcher)
    = mkProc (w test_watcher) (sub test_watcher) [] Receiving None
        (trace test_watcher
         ++ flat_map (λ m, EvRecv m :: call_events CallbackNotSet m)
              [Text ""; Text "Close"; Text "{"]).
Proof.
  split; [reflexivity|]. split; [reflexivity|]. split; [reflexivity|]. split; [reflexivity|].
  apply (loop_passes_every_payload test_env [Text ""; Text "Close"; Text "{"] CallbackNotSet
           (set_ch [Text ""; Text "Close"; Text "{"] test_watcher)); reflexivity.
Defined.

Lemma closing_watcher_settled : settled closing_watcher.
Proof. split; [reflexivity|]. intros _. eexists. reflexivity. Defined.

Lemma loop_exit_closes_in_order_witness :
  settled closing_watcher ∧ loop closing_watcher = Selecting (Text "Close")
  ∧ close (w closing_watcher) = true
  ∧ ∃ c channel evs,
      sub closing_watcher = Some (c, channel)
      ∧ loop_step test_env closing_watcher
        = mkProc (w closing_watcher) (sub closing_watcher) (ch closing_watcher) Exited
            (fatal closing_watcher) (trace closing_watcher ++ evs)
      ∧ filter (λ ev, is_close ev = true) evs
        = [EvPubSubClose c channel;
           EvClientClose RolePub (pubClient (w closing_watcher));
           EvClientClose RoleSub (subClient (w closing_watcher))]
      ∧ (∃ e1 e2 e3,
           evs = [EvPubSubClose c channel] ++ log_events e1
                 ++ [EvClientClose RolePub (pubClient (w closing_watcher))] ++ log_events e2
                 ++ [EvClientClose RoleSub (subClient (w closing_watcher))] ++ log_events e3
           ∧ e1 = net test_env (length (trace closing_watcher))
           ∧ e2 = net test_env (length (trace closing_watcher ++ [EvPubSubClose c channel]
                                          ++ log_events e1))
           ∧ e3 = net test_env (length (trace closing_watcher ++ [EvPubSubClose c channel]
                                          ++ log_events e1
                                          ++ [EvClientClose RolePub
                                                (pubClient (w closing_watcher))]
                                          ++ log_events e2)))
      ∧ (∀ msg, EvPanic msg ∉ evs).
Proof.
  split; [exact closing_watcher_settled|]. split; [reflexivity|]. split; [reflexivity|].
  apply (loop_exit_closes_in_order test_env closing_watcher (Text "Close"));
    [exact closing_watcher_settled | reflexivity | reflexivity].
Defined.

Lemma no_callback_after_signal_witness :
  NewWatcher test_env test_options = (Ret (inl test_watcher), trace test_watcher)
  ∧ (∀ t1 t2 t3 m,
       trace (run test_env [CallClose; Deliver (Text "Close"); LoopStep; LoopStep] test_watcher)
       = t1 ++ EvCloseSignal :: t2 ++ EvRecv m :: t3 →
       ∀ f d, EvCall f d ∉ t3).
Proof.
  split; [reflexivity|].
  apply (no_callback_after_signal test_env test_options test_watcher (trace test_watcher)
           [CallClose; Deliver (Text "Close"); LoopStep; LoopStep]).
  reflexivity.
Defined.

Lemma SetUpdateCallback_replaces_witness :
  NewWatcher test_env test_options = (Ret (inl test_watcher), trace test_watcher)
  ∧ is_Some (callback (w test_watcher))
  ∧ (∀ cb,
       SetUpdateCallback cb (run test_env [Deliver (Text "x"); LoopStep] test_watcher)
       = (Ret None,
          mkProc (set_callback cb (w (run test_env [Deliver (Text "x"); LoopStep] test_watcher)))
            (sub (run test_env [Deliver (Text "x"); LoopStep] test_watcher))
            (ch (run test_env [Deliver (Text "x"); LoopStep] test_watcher))
            (loop (run test_env [Deliver (Text "x"); LoopStep] test_watcher))
            (fatal (run test_env [Deliver (Text "x"); LoopStep] test_watcher))
            (trace (run test_env [Deliver (Text "x"); LoopStep] test_watcher)
             ++ [EvLock; EvUnlock])))
  ∧ ((∀ cb, CallSetUpdateCallback cb ∈ [Deliver (Text "x"); LoopStep] → cb ≠ None) →
     is_Some (callback (w (run test_env [Deliver (Text "x"); LoopStep] test_watcher)))
     ∧ EvPanic nil_deref ∉ trace (run test_env [Deliver (Text "x"); LoopStep] test_watcher))
  ∧ (∀ m,
       fatal (run test_env [CallSetUpdateCallback None; Deliver m; LoopStep; LoopStep; LoopStep]
                test_watcher)
       = Some nil_deref
       ∧ EvPanic nil_deref
         ∈ trace (run test_env
                    [CallSetUpdateCallback None; Deliver m; LoopStep; LoopStep; LoopStep]
                    test_watcher)).
Proof.
  split; [reflexivity|].
  apply (SetUpdateCallback_replaces test_env test_options test_watcher (trace test_watcher)
           [Deliver (Text "x"); LoopStep]).
  reflexivity.
Defined.

(** * Further properties of the code *)

(** ** options.go *)

(** X1: initConfig fills in what is missing and nothing else: an empty
    Channel becomes /casbin, an empty LocalID the generated UUID; a Channel
    or LocalID that is given is kept, every other field is left alone, the
    Channel is never empty afterwards, and a second initConfig changes
    nothing. *)
Theorem initConfig_defaults (e : env) (opt : WatcherOptions) :
  Channel (initConfig e opt) ≠ ""
  ∧ Channel (initConfig e opt) = (if bool_decide (Channel opt = "") then "/casbin" else Channel opt)
  ∧ LocalID (initConfig e opt)
    = (if bool_decide (LocalID opt = "") then uuid_New e else LocalID opt)
  ∧ set_LocalID (LocalID opt) (set_Channel (Channel opt) (initConfig e opt)) = opt
  ∧ initConfig e (initConfig e opt) = initConfig e opt.
Proof.
  unfold initConfig. destruct opt as [o s q chn ig lid addrs ns mc us mn f]. cbn.
  destruct (bool_decide_reflect (lid = "")) as [Hlid|Hlid];
    destruct (bool_decide_reflect (chn = "")) as [Hchn|Hchn]; cbn;
    repeat (case_bool_decide; cbn); subst; split_and!; done || congruence.
Qed.

(** ** The codec, once more *)

Lemma generic_idem (a : any) : generic (generic a) = generic a.
Proof.
  rewrite <- (unmarshal_marshal_any (generic a)), marshal_generic.
  apply unmarshal_marshal_any.
Qed.

(** X2: what a receiver decodes is a fixed point of the codec: encoding and
    decoding the decoded envelope once more reproduces it exactly, payload
    included, and its Method, ID, Sec and Ptype are valid UTF-8 whatever
    bytes the sender's strings held. *)
Theorem decode_encode_stable (m : MSG) :
  decode (MarshalBinary (decode (MarshalBinary m)).1) = ((decode (MarshalBinary m)).1, None)
  ∧ ValidString (Method (decode (MarshalBinary m)).1) = true
  ∧ ValidString (ID (decode (MarshalBinary m)).1) = true
  ∧ ValidString (Sec (decode (MarshalBinary m)).1) = true
  ∧ ValidString (Ptype (decode (MarshalBinary m)).1) = true.
Proof.
  rewrite !decode_MarshalBinary. cbn [fst Method ID Sec Ptype Params].
  rewrite !unmarshal_marshal_any, generic_idem, !coerce_utf8_idem.
  split_and!; [done|apply ValidString_coerce_utf8..].
Qed.

(** ** The publishing methods *)

(** X3: each of the five publishing methods, called on a watcher whose
    mutex is free, publishes one message on the publish client and the
    watcher's channel, between Lock and Unlock; it returns the error of that
    publish, logs it when there is one, and leaves the watcher, the
    goroutine and the pending messages as they were.  It does not look at
    the shutdown signal.  The message decodes without error to an envelope
    with the method's tag and the watcher's LocalID coerced to valid UTF-8,
    which is the LocalID itself when that is valid UTF-8. *)
Theorem publisher_returns_transport_error (e : env) (a : action)
    (m : M (option error)) (name : string) (p : proc) :
  publisher e a = Some (m, name) → l (w p) = false →
  ∃ doc,
    m p = (Ret (net e (S (length (trace p)))),
           mkProc (w p) (sub p) (ch p) (loop p) (fatal p)
             (trace p ++
                [EvLock;
                 EvPublish (pubClient (w p)) (Channel (options (w p))) (Encoded doc);
                 EvUnlock] ++ log_events (net e (S (length (trace p))))))
    ∧ (decode doc).2 = None
    ∧ Method (decode doc).1 = name
    ∧ ID (decode doc).1 = coerce_utf8 (LocalID (options (w p)))
    ∧ (ValidString (LocalID (options (w p))) = true →
       ID (decode doc).1 = LocalID (options (w p))).
Proof.
  intros Ha Hl.
  destruct a; cbn in Ha; try discriminate; injection Ha as <- <-;
    unfold Update, UpdateForAddPolicy, UpdateForRemovePolicy, UpdateForRemoveFilteredPolicy,
      UpdateForSavePolicy;
    rewrite publish_MSG_run by done;
    (eexists; split; [reflexivity|]);
    rewrite decode_MarshalBinary; cbn [fst snd Method ID];
    (split_and!; [done|reflexivity|done|by intros ?%coerce_utf8_ValidString]).
Qed.

(** X4: the envelope of Update decodes to what was sent: the tag Update,
    the LocalID coerced to valid UTF-8 (the LocalID itself when it is valid
    UTF-8), empty section and type and the empty string as payload.  The
    envelope of UpdateForSavePolicy decodes to the model in generic form,
    and marshalling that payload again gives the document of the model
    itself, so a receiver can rebuild from it what the sender wrote. *)
Theorem Update_and_SavePolicy_envelopes (e : env) (model : Model) (p : proc) :
  l (w p) = false →
  (∃ doc,
     published (trace (Update e p).2)
       = published (trace p) ++ [(Channel (options (w p)), Encoded doc)]
     ∧ decode doc
       = (mkMSG "Update" (coerce_utf8 (LocalID (options (w p)))) "" "" (GoString ""), None)
     ∧ (ValidString (LocalID (options (w p))) = true →
        decode doc = (mkMSG "Update" (LocalID (options (w p))) "" "" (GoString ""), None)))
  ∧ (∃ doc,
       published (trace (UpdateForSavePolicy e model p).2)
         = published (trace p) ++ [(Channel (options (w p)), Encoded doc)]
       ∧ decode doc
         = (mkMSG "UpdateForSavePolicy" (coerce_utf8 (LocalID (options (w p)))) "" ""
              (generic_Model model), None)
       ∧ marshal_any (Params (decode doc).1) = marshal_Model model).
Proof.
  intros Hl. unfold Update, UpdateForSavePolicy. split.
  - eexists. split; [by apply publish_MSG_published|]. split; [reflexivity|].
    intros Hv%coerce_utf8_ValidString. rewrite decode_MarshalBinary.
    cbn [Method ID Sec Ptype Params]. by rewrite Hv.
  - eexists. split; [by apply publish_MSG_published|].
    rewrite decode_MarshalBinary. cbn [fst Method ID Sec Ptype Params marshal_any].
    rewrite unmarshal_marshal_Model.
    split; [done|]. apply marshal_generic_Model.
Qed.

(** ** Construction, once more *)

Lemma NewWatcher_finish_steps (e : env) (opt : WatcherOptions) (c : client) :
  NewWatcher_finish e opt (literal c)
  = let sc' := from_option ClusterClientPtr c (SubClient opt) in
    let pc' := from_option ClusterClientPtr c (PubClient opt) in
    let w1 := mkWatcher false sc' pc' zeroOptions false
                (Some (default CallbackNotSet (OptionalUpdateCallback opt))) in
    match net e 4 with
    | Some x =>
        (Ret (Some x),
         mkProc w1 None [] NotStarted None
           [EvNew RoleSub c; EvNew RolePub c; EvLock; EvUnlock; EvPing RoleSub sc'])
    | None =>
        match net e 5 with
        | Some y =>
            (Ret (Some y),
             mkProc w1 None [] NotStarted None
               [EvNew RoleSub c; EvNew RolePub c; EvLock; EvUnlock;
                EvPing RoleSub sc'; EvPing RolePub pc'])
        | None => (Ret None, watching opt c c)
        end
    end.
Proof.
  unfold NewWatcher_finish, Watcher_initConfig, SetUpdateCallback, Ping, subscribe, watching,
    literal. unfold_M.
  destruct opt as [o [s|] [q|] chn ig lid addrs ns mc us mn [f|]]; cbn;
    destruct (net e 4) as [x|]; cbn; try reflexivity;
    destruct (net e 5) as [y|]; cbn; reflexivity.
Qed.

Lemma NewWatcher_unfold (e : env) (opt : WatcherOptions) :
  ¬ config_refused opt →
  ∃ a0 c,
    head (Addresses opt) = Some a0
    ∧ (if UseSentinel opt
       then c = NewFailoverClient (MasterName opt) (Addresses opt)
                  (int_of_Z (MaxConnections (defaulted e opt)))
       else if bool_decide (1 < length (Addresses opt))%nat
       then c = NewClusterClient (Addresses opt) (Password (Options opt))
                  (int_of_Z (MaxConnections (defaulted e opt)))
       else c = NewClient (mkOptions a0 (Password (Options opt)) 0))
    ∧ NewWatcher e opt = returned (NewWatcher_finish e (defaulted e opt) (literal c)).
Proof.
  intros Hok. unfold NewWatcher, config_refused in *. fold (defaulted e opt).
  destruct (defaulted_fields e opt) as (HO & _ & _ & HA & _ & HU & HM & _).
  destruct (Addresses opt) as [|a0 rest] eqn:Haddr; [by destruct Hok; left|].
  destruct (bool_decide_reflect (a0 = "")) as [Ha0|Ha0];
    [destruct Hok; right; left; by subst|].
  destruct (bool_decide_reflect (Namespace opt = "")) as [Hns|Hns];
    [by destruct Hok; do 2 right; left|].
  destruct (UseSentinel opt && bool_decide (MasterName opt = "")) eqn:Hsent.
  { apply andb_true_iff in Hsent as [Hus Hmn%bool_decide_eq_true]. destruct Hok. by do 3 right. }
  rewrite HU, HM, HA, HO. exists a0.
  destruct (UseSentinel opt) eqn:Hus; cbv iota.
  - cbn in Hsent. rewrite Hsent. eexists. split; [reflexivity|]. split; reflexivity.
  - clear Hsent. case_bool_decide; eexists; (split; [reflexivity|]); split; reflexivity.
Qed.

(** X5: for options it accepts, NewWatcher builds both clients, sets the
    callback and pings the subscribe side, then the publish side.  The
    error of the first ping that fails is returned as it is, and nothing
    follows it: the publish side is not pinged after a failed subscribe
    ping, nothing is subscribed, no goroutine is started, and the clients
    that were built are not closed.  Only when both pings succeed is a
    watcher returned, subscribed and with its goroutine waiting. *)
Theorem NewWatcher_ping_failure (e : env) (opt : WatcherOptions) :
  ¬ config_refused opt →
  ∃ c,
    match net e 4, net e 5 with
    | Some x, _ =>
        NewWatcher e opt
        = (Ret (inr x),
           [EvNew RoleSub c; EvNew RolePub c; EvLock; EvUnlock;
            EvPing RoleSub (from_option ClusterClientPtr c (SubClient opt))])
    | None, Some y =>
        NewWatcher e opt
        = (Ret (inr y),
           [EvNew RoleSub c; EvNew RolePub c; EvLock; EvUnlock;
            EvPing RoleSub (from_option ClusterClientPtr c (SubClient opt));
            EvPing RolePub (from_option ClusterClientPtr c (PubClient opt))])
    | None, None =>
        ∃ p, NewWatcher e opt = (Ret (inl p), trace p)
             ∧ loop p = Receiving
             ∧ sub p = Some (subClient (w p), Channel (options (w p)))
    end.
Proof.
  intros Hok. destruct (NewWatcher_unfold e opt Hok) as (a0 & c & _ & _ & Hrun).
  destruct (defaulted_fields e opt) as (_ & HS & HP & _).
  exists c. rewrite Hrun, NewWatcher_finish_steps. cbv zeta. rewrite HS, HP.
  destruct (net e 4) as [x|]; [done|]. destruct (net e 5) as [y|]; [done|].
  eexists. split; [reflexivity|]. split; reflexivity.
Qed.

(** X6: the watcher NewWatcher returns.  Its options are the given ones
    after defaulting, its callback is the given one or the logging default,
    the signal is open, the mutex free, no message is pending and the
    goroutine waits on a subscription to the options' channel, opened on the
    watcher's subscribe client.  A cluster client handed in through
    SubClient or PubClient takes the place of the client built for that side
    and is the one that is pinged; the two clients are built all the same,
    and nothing closes the one that is replaced. *)
Theorem NewWatcher_returns (e : env) (opt : WatcherOptions) (p : proc) (t : list event) :
  NewWatcher e opt = (Ret (inl p), t) →
  options (w p) = defaulted e opt
  ∧ callback (w p) = Some (default CallbackNotSet (OptionalUpdateCallback opt))
  ∧ close (w p) = false ∧ l (w p) = false ∧ ch p = [] ∧ loop p = Receiving ∧ fatal p = None
  ∧ sub p = Some (subClient (w p), Channel (defaulted e opt))
  ∧ t = trace p
  ∧ ∃ c,
      constructed t = [(RoleSub, c); (RolePub, c)]
      ∧ (∀ n, c ≠ ClusterClientPtr n)
      ∧ subClient (w p) = from_option ClusterClientPtr c (SubClient opt)
      ∧ pubClient (w p) = from_option ClusterClientPtr c (PubClient opt)
      ∧ EvPing RoleSub (subClient (w p)) ∈ t
      ∧ EvPing RolePub (pubClient (w p)) ∈ t
      ∧ filter (λ ev, is_close ev = true) t = [].
Proof.
  intros Hnew.
  destruct (NewWatcher_cases e opt) as [(_ & err & _ & Herr)|(Hok & _)].
  { rewrite Herr in Hnew. discriminate. }
  destruct (NewWatcher_unfold e opt Hok) as (a0 & c & _ & Hc & Hrun).
  destruct (defaulted_fields e opt) as (_ & HS & HP & _ & _ & _ & _ & HCb & _).
  rewrite Hrun, NewWatcher_finish_steps in Hnew. cbv zeta in Hnew.
  destruct (net e 4) as [x|]; [discriminate|]. destruct (net e 5) as [y|]; [discriminate|].
  cbn in Hnew. injection Hnew as <- <-. unfold watching. cbn. rewrite HS, HP, HCb.
  split_and!; try done. exists c. split_and!; try done.
  - intros n ->. destruct (UseSentinel opt); [|case_bool_decide]; discriminate.
  - rewrite !elem_of_cons. auto 10.
  - rewrite !elem_of_cons. auto 10.
Qed.

Lemma int_of_Z_small (z : Z) : (0 ≤ z < 2 ^ 63)%Z → int_of_Z z = z.
Proof. intros Hz. unfold int_of_Z. rewrite Z.mod_small by lia. lia. Qed.

(** X7: which clients NewWatcher builds when MaxConnections is given.
    Sentinel mode comes first, whatever the number of addresses: two
    failover clients on the master name and the whole address list; without
    it, more than one address gives two cluster clients on the list and the
    password; in both MaxConnections is the PoolSize.  A single address
    gives two plain clients on that address and the password, and
    MaxConnections is not passed to them.  The Addr of the embedded options
    is never used. *)
Theorem NewWatcher_clients_by_mode (e : env) (opt : WatcherOptions) :
  ¬ config_refused opt → (0 < MaxConnections opt < 2 ^ 63)%Z →
  ∃ r t c,
    NewWatcher e opt = (r, t)
    ∧ constructed t = [(RoleSub, c); (RolePub, c)]
    ∧ (UseSentinel opt = true →
       c = NewFailoverClient (MasterName opt) (Addresses opt) (MaxConnections opt))
    ∧ (UseSentinel opt = false → (1 < length (Addresses opt))%nat →
       c = NewClusterClient (Addresses opt) (Password (Options opt)) (MaxConnections opt))
    ∧ (UseSentinel opt = false → length (Addresses opt) = 1%nat →
       ∃ a0, Addresses opt = [a0] ∧ c = NewClient (mkOptions a0 (Password (Options opt)) 0)).
Proof.
  intros Hok Hmc.
  destruct (NewWatcher_accepted e opt Hok) as (r & t & a0 & c & Hrun & Ht & Ha0 & Hc & _).
  destruct (defaulted_fields e opt) as (_ & _ & _ & _ & _ & _ & _ & _ & HMC & _).
  rewrite bool_decide_eq_false_2 in HMC by lia.
  rewrite HMC, int_of_Z_small in Hc by lia.
  exists r, t, c. split; [done|]. split; [done|].
  destruct (UseSentinel opt) eqn:Hus; [|case_bool_decide as Hlen]; subst c; split_and!;
    try done.
  - intros _ Hl1. lia.
  - intros _ Hl1. exists a0. split; [|done].
    destruct (Addresses opt) as [|x [|y rest]]; cbn in *; try done; congruence.
Qed.

(** ** Invariants of the running watcher *)

Lemma run_invariant_on (e : env) (P : action → Prop) (I : proc → Prop) :
  (∀ a p p', P a → settled p → I p → transition e p a p' → I p') →
  ∀ acts p, Forall P acts → settled p → I p → I (run e acts p).
Proof.
  intros Hstep acts p Hacts Hp HI.
  induction acts as [|a acts IH] using rev_ind; [done|].
  apply Forall_app in Hacts as [Hacts Ha]. apply Forall_cons in Ha as [Ha _].
  rewrite run_snoc. eapply (Hstep a); [done|by apply run_settled|by apply IH|].
  apply perform_transition. by apply run_settled.
Qed.

(** X8: no method and no step of the goroutine ever changes the options,
    the two clients or the subscription of a watcher: GetWatcherOptions
    returns, at any time, the options the watcher started with.  The
    callback changes only through SetUpdateCallback and the signal only
    through Close. *)
Theorem watcher_fields_are_stable (e : env) (acts : list action) (p : proc) :
  settled p →
  options (w (run e acts p)) = options (w p)
  ∧ subClient (w (run e acts p)) = subClient (w p)
  ∧ pubClient (w (run e acts p)) = pubClient (w p)
  ∧ sub (run e acts p) = sub p
  ∧ (GetWatcherOptions (run e acts p)).1 = Ret (options (w p))
  ∧ ((∀ cb, CallSetUpdateCallback cb ∉ acts) →
     callback (w (run e acts p)) = callback (w p))
  ∧ (CallClose ∉ acts → close (w (run e acts p)) = close (w p)).
Proof.
  intros Hp.
  assert (options (w (run e acts p)) = options (w p)
          ∧ subClient (w (run e acts p)) = subClient (w p)
          ∧ pubClient (w (run e acts p)) = pubClient (w p)
          ∧ sub (run e acts p) = sub p) as (Ho & Hs & Hq & Hsub).
  { apply (run_invariant e (λ q, options (w q) = options (w p)
                                ∧ subClient (w q) = subClient (w p)
                                ∧ pubClient (w q) = pubClient (w p)
                                ∧ sub q = sub p)); [|done|done].
    intros a q q' _ Hinv Ht. destruct Ht; cbn; done. }
  split_and!; try done.
  - rewrite GetWatcherOptions_run by (by apply run_settled). cbn. by rewrite Ho.
  - intros Hno.
    apply (run_invariant_on e (λ a, ∀ cb, a ≠ CallSetUpdateCallback cb)
             (λ q, callback (w q) = callback (w p))); try done.
    + intros a q q' Ha _ Hinv Ht. destruct Ht; cbn; try done. by destruct (Ha cb).
    + apply Forall_forall. intros a Hin cb ->. by apply (Hno cb).
  - intros Hno.
    apply (run_invariant_on e (λ a, a ≠ CallClose) (λ q, close (w q) = close (w p)));
      try done.
    + intros a q q' Ha _ Hinv Ht. destruct Ht; cbn; done.
    + apply Forall_forall. by intros a Hin ->.
Qed.

Lemma called_app (t1 t2 : list event) : called (t1 ++ t2) = called t1 ++ called t2.
Proof. apply omap_app. Qed.

Lemma received_app (t1 t2 : list event) : received (t1 ++ t2) = received t1 ++ received t2.
Proof. apply omap_app. Qed.

Lemma inert_silent (t : list event) :
  Forall (λ ev, inert ev = true) t → received t = [] ∧ called t = [].
Proof.
  induction 1 as [|ev t Hev _ [IH1 IH2]]; [done|].
  destruct ev; try discriminate; cbn; by rewrite ?IH1, ?IH2.
Qed.

Lemma call_events_silent (f : func) (m : payload) :
  received (call_events f m) = [] ∧ called (call_events f m) = [m].
Proof. by destruct f. Qed.

Lemma handover_inv_step (e : env) (a : action) (p p' : proc) :
  settled p → handover_inv p → transition e p a p' → handover_inv p'.
Proof.
  intros _ (d & Hd & Hloop) Ht. unfold handover_inv.
  destruct Ht as [a| | |a evs Hq| | |m rest Hl Hch|m Hl Hc|m c channel Hl Hc Hs|m f Hl Hcb
                 |m c channel Hl Hcb Hs];
    cbn [trace loop set_ch set_loop]; rewrite ?received_app, ?called_app;
    try (destruct (inert_silent _ (inert_close_events e (length (trace p)) c channel (w p)))
           as [-> ->]);
    try (destruct (inert_silent evs (quiet_inert evs Hq)) as [-> ->]);
    try (destruct (call_events_silent f m) as [-> ->]);
    try (rewrite Hl in Hloop; cbn in Hloop; subst d);
    cbn [received called omap]; rewrite ?app_nil_r in *.
  - by exists d.
  - by exists d.
  - by exists d.
  - by exists d.
  - by exists d.
  - by exists d.
  - exists [m]. split; [|reflexivity]. rewrite Hd. reflexivity.
  - exists [m]. split; [exact Hd|reflexivity].
  - exists [m]. split; [exact Hd|]. cbn. lia.
  - exists []. split; [|reflexivity]. rewrite app_nil_r. exact Hd.
  - exists [m]. split; [exact Hd|]. cbn. lia.
Qed.

Lemma delivery_step (e : env) (a : action) (p : proc) :
  settled p → fatal p = None →
  received (trace (perform e a p)) ++ ch (perform e a p)
  = (received (trace p) ++ ch p) ++ delivered [a].
Proof.
  intros Hp Hf.
  assert ((∃ m, a = Deliver m) ∨ delivered [a] = []) as [[m ->]|Hnd]
    by (destruct a; eauto).
  - unfold perform. rewrite Hf. cbn. by rewrite app_assoc.
  - rewrite Hnd, app_nil_r.
    pose proof (perform_transition e a p Hp) as Ht. revert Hnd.
    destruct Ht as [a| | |a evs Hq| | |m rest Hl Hch|m Hl Hc|m c channel Hl Hc Hs|m f Hl Hcb
                   |m c channel Hl Hcb Hs];
      intros Hnd; cbn [trace ch set_ch set_loop]; rewrite ?received_app;
      try (destruct (inert_silent _ (inert_close_events e (length (trace p)) c channel (w p)))
             as [-> _]);
      try (destruct (inert_silent evs (quiet_inert evs Hq)) as [-> _]);
      try (destruct (call_events_silent f m) as [-> _]);
      cbn [received omap]; rewrite ?app_nil_r; try done.
    rewrite Hch, <- app_assoc. done.
Qed.

Lemma delivered_app (acts1 acts2 : list action) :
  delivered (acts1 ++ acts2) = delivered acts1 ++ delivered acts2.
Proof. apply omap_app. Qed.

Lemma run_delivery (e : env) (acts : list action) (p : proc) :
  settled p →
  (received (trace (run e acts p)) ++ ch (run e acts p))
    `prefix_of` ((received (trace p) ++ ch p) ++ delivered acts)
  ∧ (fatal (run e acts p) = None →
     received (trace (run e acts p)) ++ ch (run e acts p)
     = (received (trace p) ++ ch p) ++ delivered acts).
Proof.
  intros Hp. induction acts as [|a acts [IHp IHe]] using rev_ind.
  { cbn. rewrite app_nil_r. done. }
  rewrite run_snoc, delivered_app, app_assoc.
  destruct (fatal (run e acts p)) as [msg|] eqn:Hf.
  - assert (perform e a (run e acts p) = run e acts p) as ->
      by (unfold perform; by rewrite Hf).
    split; [by apply prefix_app_r|]. intros Hf'. congruence.
  - rewrite (delivery_step e a) by (by apply run_settled || done).
    rewrite (IHe eq_refl). done.
Qed.

(** X9: the callback is handed the delivered payloads in the order of
    delivery, each at most once and none before its turn: along every
    interleaving from a watcher NewWatcher returned, the payloads handed to
    callbacks are a prefix of the payloads the goroutine received, at most
    one behind, and the received payloads followed by the pending ones are a
    prefix of the delivered ones, all of them as long as the process
    lives. *)
Theorem callbacks_follow_delivery (e : env) (opt : WatcherOptions) (p0 : proc)
    (t0 : list event) (acts : list action) :
  NewWatcher e opt = (Ret (inl p0), t0) →
  called (trace (run e acts p0)) `prefix_of` received (trace (run e acts p0))
  ∧ (length (received (trace (run e acts p0)))
     ≤ length (called (trace (run e acts p0))) + 1)%nat
  ∧ (received (trace (run e acts p0)) ++ ch (run e acts p0)) `prefix_of` delivered acts
  ∧ (fatal (run e acts p0) = None →
     received (trace (run e acts p0)) ++ ch (run e acts p0) = delivered acts).
Proof.
  intros Hnew. destruct (NewWatcher_built e opt p0 t0 Hnew) as (c0 & -> & _).
  pose proof (watching_settled (defaulted e opt) c0 c0) as Hset.
  assert (handover_inv (run e acts (watching (defaulted e opt) c0 c0)))
    as (d & Hd & Hloop).
  { apply (run_invariant e handover_inv (handover_inv_step e)); [done|]. by exists []. }
  assert (length d ≤ 1)%nat as Hlen.
  { destruct (loop (run e acts (watching (defaulted e opt) c0 c0))); subst; cbn; lia. }
  destruct (run_delivery e acts _ Hset) as [Hpre Heq]. cbn in Hpre, Heq.
  split_and!; try done.
  - rewrite Hd. by apply prefix_app_r.
  - rewrite Hd, length_app. lia.
Qed.

Lemma filter_close_events (e : env) (n : nat) (c : client) (channel : string) (x : Watcher) :
  filter (λ ev, is_close ev = true) (close_events e n c channel x) = three_closes c channel x.
Proof.
  unfold close_events, three_closes. cbv zeta.
  destruct (net e n); cbn;
    match goal with |- context [net e ?k] => destruct (net e k) end; cbn;
    match goal with |- context [net e ?k] => destruct (net e k) end; reflexivity.
Qed.

Lemma filter_close_inert_quiet (t : list event) :
  Forall (λ ev, quiet ev = true) t → filter (λ ev, is_close ev = true) t = [].
Proof.
  induction 1 as [|ev t Hev _ IH]; [done|]. destruct ev; try discriminate; exact IH.
Qed.

Lemma closes_inv_step (e : env) (a : action) (p p' : proc) :
  settled p → closes_inv p → transition e p a p' → closes_inv p'.
Proof.
  intros _ Hp Ht. unfold closes_inv in *.
  destruct Ht as [a| | |a evs Hq| | |m rest Hl Hch|m Hl Hc|m c channel Hl Hc Hs|m f Hl Hcb
                 |m c channel Hl Hcb Hs];
    cbn [sub trace loop w set_ch set_loop set_callback set_close pubClient subClient];
    try done;
    destruct (sub p) as [[c' channel']|]; try done; rewrite ?filter_app;
    try rewrite (filter_close_inert_quiet evs Hq);
    try rewrite filter_close_events;
    try (rewrite Hl in Hp);
    try (injection Hs as <- <-);
    rewrite ?Hp; cbn; rewrite ?app_nil_r; try done.
  by destruct f.
Qed.

Lemma exit_reason_step (e : env) (a : action) (p p' : proc) :
  settled p →
  (loop p = Exited → close (w p) = true ∨ fatal p = Some nil_deref) →
  transition e p a p' →
  loop p' = Exited → close (w p') = true ∨ fatal p' = Some nil_deref.
Proof.
  intros _ Hp Ht. destruct Ht; cbn; auto; try congruence; try discriminate.
Qed.

(** X10: the goroutine of a watcher NewWatcher returned leaves only after
    the shutdown signal was set or on a nil callback.  While it runs nothing
    is closed; once it has left, the trace holds exactly three closes: the
    subscription, the publish client, the subscribe client, in this order
    and once each, whatever is called afterwards, a second Close included. *)
Theorem connections_closed_once (e : env) (opt : WatcherOptions) (p0 : proc)
    (t0 : list event) (acts : list action) :
  NewWatcher e opt = (Ret (inl p0), t0) →
  filter (λ ev, is_close ev = true) (trace (run e acts p0))
  = match loop (run e acts p0) with
    | Exited =>
        [EvPubSubClose (subClient (w p0)) (Channel (options (w p0)));
         EvClientClose RolePub (pubClient (w p0));
         EvClientClose RoleSub (subClient (w p0))]
    | _ => []
    end
  ∧ (loop (run e acts p0) = Exited →
     close (w (run e acts p0)) = true ∨ fatal (run e acts p0) = Some nil_deref).
Proof.
  intros Hnew. destruct (NewWatcher_built e opt p0 t0 Hnew) as (c0 & -> & _).
  pose proof (watching_settled (defaulted e opt) c0 c0) as Hset.
  set (p0 := watching (defaulted e opt) c0 c0) in *.
  assert (options (w (run e acts p0)) = options (w p0)
          ∧ subClient (w (run e acts p0)) = subClient (w p0)
          ∧ pubClient (w (run e acts p0)) = pubClient (w p0)
          ∧ sub (run e acts p0) = sub p0) as (Ho & Hs & Hq & Hsub).
  { apply (run_invariant e (λ q, options (w q) = options (w p0)
                                ∧ subClient (w q) = subClient (w p0)
                                ∧ pubClient (w q) = pubClient (w p0)
                                ∧ sub q = sub p0)); [|done|done].
    intros a q q' _ Hinv Ht. destruct Ht; cbn; done. }
  split.
  - assert (closes_inv (run e acts p0)) as Hcl.
    { apply (run_invariant e closes_inv (closes_inv_step e)); [done|]. reflexivity. }
    unfold closes_inv in Hcl. rewrite Hsub in Hcl. cbn in Hcl.
    rewrite Hcl. unfold three_closes. rewrite Hs, Hq. done.
  - apply (run_invariant e
             (λ q, loop q = Exited → close (w q) = true ∨ fatal q = Some nil_deref)
             (exit_reason_step e)); [done|]. discriminate.
Qed.

(** ** The mutex *)

Lemma mutex_after_app (t evs : list event) :
  mutex_after (t ++ evs) = foldl mutex_step (mutex_after t) evs.
Proof. apply foldl_app. Qed.

Lemma mutex_untouched (st : option bool) (evs : list event) :
  Forall (λ ev, ev ≠ EvLock ∧ ev ≠ EvUnlock) evs → foldl mutex_step st evs = st.
Proof.
  intros H. revert st. induction H as [|ev evs [H1 H2] _ IH]; intros st; [done|].
  cbn. rewrite IH. destruct st as [[]|], ev; done.
Qed.

Lemma lock_free_log_events (err : option error) :
  Forall (λ ev, ev ≠ EvLock ∧ ev ≠ EvUnlock) (log_events err).
Proof. destruct err; repeat constructor; done. Qed.

Lemma lock_free_close_events (e : env) (n : nat) (c : client) (channel : string)
    (x : Watcher) :
  Forall (λ ev, ev ≠ EvLock ∧ ev ≠ EvUnlock) (close_events e n c channel x).
Proof.
  unfold close_events. cbv zeta.
  repeat (apply Forall_app; split); try apply lock_free_log_events; by repeat constructor.
Qed.

Lemma loop_step_lock_free (e : env) (p : proc) :
  settled p →
  ∃ evs, trace (loop_step e p) = trace p ++ evs
         ∧ Forall (λ ev, ev ≠ EvLock ∧ ev ≠ EvUnlock) evs
         ∧ w (loop_step e p) = w p.
Proof.
  intros [Hl Hsub]. unfold loop_step.
  destruct (loop p) as [| |m|m|] eqn:Hloop.
  - exists []. by rewrite app_nil_r.
  - destruct (ch p) as [|m rest]; [exists []; by rewrite app_nil_r|].
    exists [EvRecv m]. split_and!; [done| |done]. by repeat constructor.
  - destruct (Hsub ltac:(congruence)) as [[c channel] Hs].
    destruct (close (w p)) eqn:Hc; [|exists []; by rewrite app_nil_r].
    unfold invoke. rewrite (deferred_closes_run e _ c channel) by done.
    eexists. split_and!; [reflexivity| |done]. apply lock_free_close_events.
  - destruct (Hsub ltac:(congruence)) as [[c channel] Hs].
    destruct (callback (w p)) as [f|] eqn:Hcb.
    + unfold invoke. rewrite call_func_run. eexists. split_and!; [reflexivity| |done].
      unfold call_events. destruct f; by repeat constructor.
    + unfold invoke, defer, panic. rewrite (deferred_closes_run e _ c channel) by done.
      cbn. rewrite <- app_assoc. eexists. split_and!; [reflexivity| |done].
      apply Forall_app. split; [apply lock_free_close_events|by repeat constructor].
  - exists []. by rewrite app_nil_r.
Qed.

Lemma perform_mutex (e : env) (a : action) (p : proc) :
  settled p → mutex_after (trace p) = Some false →
  mutex_after (trace (perform e a p)) = Some false.
Proof.
  intros Hp Hm. pose proof Hp as [Hl Hsub]. unfold perform.
  destruct (fatal p) as [msg|] eqn:Hf; [done|].
  assert (∀ method sec ptype params,
    mutex_after (trace (invoke (publish_MSG e method sec ptype params) p)) = Some false)
    as Hpub.
  { intros. unfold invoke. rewrite publish_MSG_run by done. cbn [trace].
    rewrite mutex_after_app, Hm. cbn. apply mutex_untouched, lock_free_log_events. }
  destruct a as [m| |cb| |sec ptype params|sec ptype params|sec ptype i vs|model| |].
  - done.
  - destruct (loop_step_lock_free e p Hp) as (evs & -> & Hevs & _).
    by rewrite mutex_after_app, mutex_untouched.
  - unfold invoke. rewrite SetUpdateCallback_run by done. cbn [trace].
    by rewrite mutex_after_app, Hm.
  - exact (Hpub _ _ _ _).
  - exact (Hpub _ _ _ _).
  - exact (Hpub _ _ _ _).
  - exact (Hpub _ _ _ _).
  - exact (Hpub _ _ _ _).
  - unfold invoke. rewrite GetWatcherOptions_run by done. cbn [trace].
    by rewrite mutex_after_app, Hm.
  - unfold invoke. destruct (close (w p)) eqn:Hc.
    + rewrite Close_run_closed by done. cbn [trace set_fatal emit].
      by rewrite !mutex_after_app, Hm.
    + rewrite Close_run_open by done. cbn [trace]. by rewrite mutex_after_app, Hm.
Qed.

(** X11: every method gives the mutex back on every path, the Close that
    panics included: along every interleaving from a watcher NewWatcher
    returned, the Lock and Unlock events of the trace alternate, starting
    with a Lock, and the mutex is free between any two steps.  The
    goroutine itself never takes the mutex: its steps, which read the
    signal and the callback, add neither Lock nor Unlock. *)
Theorem mutex_is_released (e : env) (opt : WatcherOptions) (p0 : proc)
    (t0 : list event) (acts : list action) :
  NewWatcher e opt = (Ret (inl p0), t0) →
  l (w (run e acts p0)) = false
  ∧ mutex_after (trace (run e acts p0)) = Some false
  ∧ ∃ evs, trace (loop_step e (run e acts p0)) = trace (run e acts p0) ++ evs
           ∧ Forall (λ ev, ev ≠ EvLock ∧ ev ≠ EvUnlock) evs.
Proof.
  intros Hnew. destruct (NewWatcher_built e opt p0 t0 Hnew) as (c0 & -> & _).
  pose proof (watching_settled (defaulted e opt) c0 c0) as Hset.
  pose proof (run_settled e acts _ Hset) as Hrun.
  split; [apply Hrun|]. split.
  - clear Hrun. induction acts as [|a acts IH] using rev_ind; [reflexivity|].
    rewrite run_snoc. apply perform_mutex; [by apply run_settled|exact IH].
  - destruct (loop_step_lock_free e _ Hrun) as (evs & Hevs & Hfree & _). by exists evs.
Qed.

(** ** Signal, callback and the message in hand *)

Lemma run_idle (e : env) (n : nat) (p : proc) :
  loop p = Receiving → ch p = [] → run e (replicate n LoopStep) p = p.
Proof.
  intros Hl Hch. induction n as [|n IH]; [done|].
  cbn. unfold perform at 2. destruct (fatal p); [exact IH|].
  unfold loop_step. rewrite Hl, Hch. exact IH.
Qed.

(** X12: Close by itself does not stop the goroutine.  On a watcher whose
    goroutine waits for a message and has none pending, Close sets the
    signal and publishes its notice, and however many steps the goroutine
    is given afterwards it still waits: nothing is closed until a message
    arrives. *)
Theorem Close_needs_a_message (e : env) (n : nat) (p : proc) :
  settled p → fatal p = None → loop p = Receiving → ch p = [] → close (w p) = false →
  run e (CallClose :: replicate n LoopStep) p
  = mkProc (set_close true (w p)) (sub p) [] Receiving None
      (trace p ++ [EvLock; EvCloseSignal;
                   EvPublish (pubClient (w p)) (Channel (options (w p))) (Text "Close");
                   EvUnlock]).
Proof.
  intros [Hl Hsub] Hf Hloop Hch Hc.
  change (CallClose :: replicate n LoopStep) with ([CallClose] ++ replicate n LoopStep).
  rewrite run_app. cbn [run foldl]. unfold perform. rewrite Hf. unfold invoke.
  rewrite Close_run_open by done. rewrite run_idle by done.
  by rewrite Hloop, Hch, Hf.
Qed.

Lemma loop_step_call (e : env) (p : proc) (m : payload) (f : func) :
  loop p = Calling m → callback (w p) = Some f →
  loop_step e p
  = mkProc (w p) (sub p) (ch p) Receiving (fatal p) (trace p ++ call_events f m).
Proof.
  intros Hl Hcb. unfold loop_step. rewrite Hl, Hcb. unfold invoke.
  by rewrite call_func_run.
Qed.

(** X13: the signal is looked at once per message, in the select.  A
    message that has passed the select before Close is called is still
    handed to the callback after Close has returned, and the goroutine goes
    back to waiting. *)
Theorem message_in_hand_survives_Close (e : env) (p : proc) (m : payload) (f : func) :
  settled p → fatal p = None → loop p = Calling m → close (w p) = false →
  callback (w p) = Some f →
  run e [CallClose; LoopStep] p
  = mkProc (set_close true (w p)) (sub p) (ch p) Receiving None
      (trace p ++ [EvLock; EvCloseSignal;
                   EvPublish (pubClient (w p)) (Channel (options (w p))) (Text "Close");
                   EvUnlock] ++ call_events f m).
Proof.
  intros [Hl Hsub] Hf Hloop Hc Hcb. cbn [run foldl]. unfold perform at 2. rewrite Hf.
  unfold invoke. rewrite Close_run_open by done. unfold perform. cbn [fatal]. rewrite Hf.
  rewrite (loop_step_call e _ m f) by done. cbn. rewrite ?Hf, <- ?app_assoc. done.
Qed.

(** X14: the callback is read when it is called.  A callback stored by
    SetUpdateCallback while a message is already in the goroutine's hand is
    the one that message is handed to; the callback that was registered
    when the message was received is not called. *)
Theorem SetUpdateCallback_applies_to_message_in_hand (e : env) (p : proc) (m : payload)
    (g : func) :
  settled p → fatal p = None → loop p = Calling m →
  run e [CallSetUpdateCallback (Some g); LoopStep] p
  = mkProc (set_callback (Some g) (w p)) (sub p) (ch p) Receiving None
      (trace p ++ [EvLock; EvUnlock] ++ call_events g m).
Proof.
  intros [Hl Hsub] Hf Hloop. cbn [run foldl]. unfold perform at 2. rewrite Hf.
  unfold invoke. rewrite SetUpdateCallback_run by done. unfold perform. cbn [fatal].
  rewrite Hf. rewrite (loop_step_call e _ m g) by done. cbn. rewrite ?Hf, <- ?app_assoc. done.
Qed.

Lemma run_deliver_all (e : env) (msgs : list payload) (p : proc) :
  fatal p = None → run e (Deliver <$> msgs) p = set_ch (ch p ++ msgs) p.
Proof.
  revert p. induction msgs as [|m msgs IH]; intros p Hf.
  - cbn. rewrite app_nil_r. by destruct p.
  - cbn [fmap list_fmap run foldl]. unfold perform at 2. rewrite Hf.
    fold (run e (Deliver <$> msgs) (set_ch (ch p ++ [m]) p)).
    rewrite IH by done. cbn. rewrite <- app_assoc. by destruct p.
Qed.

Lemma logged_app (t1 t2 : list event) : logged (t1 ++ t2) = logged t1 ++ logged t2.
Proof. apply omap_app. Qed.

Lemma drain_projections (e : env) (msgs : list payload) (f : func) (p : proc) :
  fatal p = None → loop p = Receiving → ch p = msgs →
  close (w p) = false → callback (w p) = Some f →
  called (trace (run e (flat_map (λ _, [LoopStep; LoopStep; LoopStep]) msgs) p))
  = called (trace p) ++ msgs
  ∧ logged (trace (run e (flat_map (λ _, [LoopStep; LoopStep; LoopStep]) msgs) p))
    = logged (trace p) ++ flat_map (λ m, logged (call_events f m)) msgs
  ∧ loop (run e (flat_map (λ _, [LoopStep; LoopStep; LoopStep]) msgs) p) = Receiving
  ∧ ch (run e (flat_map (λ _, [LoopStep; LoopStep; LoopStep]) msgs) p) = [].
Proof.
  revert p. induction msgs as [|m msgs IH]; intros p Hf Hl Hch Hc Hcb.
  - cbn. by rewrite !app_nil_r.
  - change (flat_map (λ _ : payload, [LoopStep; LoopStep; LoopStep]) (m :: msgs))
      with ([LoopStep; LoopStep; LoopStep]
            ++ flat_map (λ _ : payload, [LoopStep; LoopStep; LoopStep]) msgs).
    rewrite run_app, (loop_passes_one e p m msgs f) by done.
    destruct (IH (mkProc (w p) (sub p) msgs Receiving None
                    (trace p ++ EvRecv m :: call_events f m)))
      as (H1 & H2 & H3 & H4); try done.
    rewrite H1, H2, H3, H4. cbn [trace].
    change (EvRecv m :: call_events f m) with ([EvRecv m] ++ call_events f m).
    rewrite !called_app, !logged_app.
    destruct (call_events_silent f m) as [_ ->]. cbn.
    rewrite <- !app_assoc. done.
Qed.

Lemma logged_calls (f : func) (msgs : list payload) :
  flat_map (λ m, logged (call_events f m)) msgs
  = match f with
    | UserFunc _ => []
    | CallbackNotSet => replicate (length msgs) not_set_line
    end.
Proof.
  destruct f; induction msgs as [|m msgs IH]; cbn in *; try done. by rewrite IH.
Qed.

(** X15: a watcher built without OptionalUpdateCallback answers every
    message with one log line saying that no callback is set, and with
    nothing else; built with a callback of the caller, it hands every
    message, from the first one on, to that callback and logs nothing.  In
    both cases the messages are handled in the order they were delivered and
    the goroutine ends up waiting with nothing pending. *)
Theorem constructed_callback_gets_every_message (e : env) (opt : WatcherOptions) (p0 : proc)
    (t0 : list event) (msgs : list payload) :
  NewWatcher e opt = (Ret (inl p0), t0) →
  called (trace (run e ((Deliver <$> msgs)
                          ++ flat_map (λ _, [LoopStep; LoopStep; LoopStep]) msgs) p0))
  = msgs
  ∧ logged (trace (run e ((Deliver <$> msgs)
                            ++ flat_map (λ _, [LoopStep; LoopStep; LoopStep]) msgs) p0))
    = match OptionalUpdateCallback opt with
      | Some (UserFunc _) => []
      | _ => replicate (length msgs) not_set_line
      end
  ∧ loop (run e ((Deliver <$> msgs)
                   ++ flat_map (λ _, [LoopStep; LoopStep; LoopStep]) msgs) p0) = Receiving
  ∧ ch (run e ((Deliver <$> msgs)
                 ++ flat_map (λ _, [LoopStep; LoopStep; LoopStep]) msgs) p0) = [].
Proof.
  intros Hnew. destruct (NewWatcher_built e opt p0 t0 Hnew) as (c0 & -> & _).
  destruct (defaulted_fields e opt) as (_ & _ & _ & _ & _ & _ & _ & HCb & _).
  rewrite run_app, run_deliver_all by done.
  destruct (drain_projections e msgs (default CallbackNotSet (OptionalUpdateCallback opt))
              (set_ch (ch (watching (defaulted e opt) c0 c0) ++ msgs)
                 (watching (defaulted e opt) c0 c0)))
    as (H1 & H2 & H3 & H4); try done.
  { cbn. by rewrite HCb. }
  rewrite H1, H2, H3, H4, logged_calls. split_and!; try done.
  by destruct (OptionalUpdateCallback opt) as [[n|]|].
Qed.

(** X16: which configuration error NewWatcher returns.  The checks run in
    a fixed order and the first that fails decides: a missing first address
    before a missing namespace, a missing namespace before a missing master
    name.  The answer does not depend on the machine or the network. *)
Theorem NewWatcher_first_config_error (e : env) (opt : WatcherOptions) :
  (Addresses opt = [] ∨ head (Addresses opt) = Some "" →
   NewWatcher e opt = (Ret (inr (errors_New "redis: missing redis node address(es)")), []))
  ∧ (∀ a0, head (Addresses opt) = Some a0 → a0 ≠ "" → Namespace opt = "" →
     NewWatcher e opt = (Ret (inr (errors_New "redis: missing key namespace")), []))
  ∧ (∀ a0, head (Addresses opt) = Some a0 → a0 ≠ "" → Namespace opt ≠ "" →
     UseSentinel opt = true → MasterName opt = "" →
     NewWatcher e opt
     = (Ret (inr (errors_New "redis: missing MasterName for Sentinel setup")), [])).
Proof.
  unfold NewWatcher. destruct (Addresses opt) as [|a rest]; cbn.
  { split_and!; [done|intros; discriminate..]. }
  split_and!.
  - intros [?|[= ->]]; [done|]. by rewrite bool_decide_eq_true_2.
  - intros a0 [= ->] Ha Hns. rewrite bool_decide_eq_false_2 by done.
    by rewrite bool_decide_eq_true_2.
  - intros a0 [= ->] Ha Hns Hus Hmn. rewrite !bool_decide_eq_false_2 by done.
    rewrite Hus, Hmn. by rewrite bool_decide_eq_true_2.
Qed.

(** ** The further properties at the set-up of the tests *)

Lemma calling_watcher_settled : settled calling_watcher.
Proof. split; [reflexivity|]. intros _. eexists. reflexivity. Defined.

Lemma cluster_options_accepted : ¬ config_refused cluster_options.
Proof. intros [H|[H|[H|[H _]]]]; discriminate H. Defined.

Lemma publisher_returns_transport_error_witness :
  publisher test_env CallUpdate = Some (Update test_env, "Update")
  ∧ l (w test_watcher) = false
  ∧ ∃ doc,
      Update test_env test_watcher
      = (Ret (net test_env (S (length (trace test_watcher)))),
         mkProc (w test_watcher) (sub test_watcher) (ch test_watcher) (loop test_watcher)
           (fatal test_watcher)
           (trace test_watcher ++
              [EvLock;
               EvPublish (pubClient (w test_watcher)) (Channel (options (w test_watcher)))
                 (Encoded doc);
               EvUnlock] ++ log_events (net test_env (S (length (trace test_watcher))))))
      ∧ (decode doc).2 = None
      ∧ Method (decode doc).1 = "Update"
      ∧ ID (decode doc).1 = coerce_utf8 (LocalID (options (w test_watcher)))
      ∧ (ValidString (LocalID (options (w test_watcher))) = true →
         ID (decode doc).1 = LocalID (options (w test_watcher))).
Proof.
  split; [reflexivity|]. split; [reflexivity|].
  apply (publisher_returns_transport_error test_env CallUpdate (Update test_env) "Update"
           test_watcher); reflexivity.
Defined.

Lemma Update_and_SavePolicy_envelopes_witness :
  l (w test_watcher) = false
  ∧ ∃ doc,
      published (trace (Update test_env test_watcher).2)
        = published (trace test_watcher) ++ [(Channel (options (w test_watcher)), Encoded doc)]
      ∧ decode doc
        = (mkMSG "Update" (coerce_utf8 (LocalID (options (w test_watcher)))) "" ""
             (GoString ""), None)
      ∧ (ValidString (LocalID (options (w test_watcher))) = true →
         decode doc
         = (mkMSG "Update" (LocalID (options (w test_watcher))) "" "" (GoString ""), None)).
Proof.
  split; [reflexivity|].
  destruct (Update_and_SavePolicy_envelopes test_env ∅ test_watcher eq_refl) as [H _].
  exact H.
Defined.

Lemma NewWatcher_ping_failure_witness :
  ¬ config_refused test_options
  ∧ ∃ c,
      NewWatcher refusing_env test_options
      = (Ret (inr (errors_New "dial tcp 127.0.0.1:6379: connect: connection refused")),
         [EvNew RoleSub c; EvNew RolePub c; EvLock; EvUnlock;
          EvPing RoleSub (from_option ClusterClientPtr c (SubClient test_options))]).
Proof.
  split; [exact test_options_accepted|].
  exact (NewWatcher_ping_failure refusing_env test_options test_options_accepted).
Defined.

Lemma NewWatcher_returns_witness :
  NewWatcher test_env cluster_options
  = (Ret (inl (watching (defaulted test_env cluster_options)
                 (NewClusterClient (Addresses cluster_options) "secret" 64)
                 (NewClusterClient (Addresses cluster_options) "secret" 64))),
     trace (watching (defaulted test_env cluster_options)
              (NewClusterClient (Addresses cluster_options) "secret" 64)
              (NewClusterClient (Addresses cluster_options) "secret" 64)))
  ∧ options (w (watching (defaulted test_env cluster_options)
                  (NewClusterClient (Addresses cluster_options) "secret" 64)
                  (NewClusterClient (Addresses cluster_options) "secret" 64)))
    = defaulted test_env cluster_options.
Proof.
  split; [reflexivity|].
  apply (NewWatcher_returns test_env cluster_options
           (watching (defaulted test_env cluster_options)
              (NewClusterClient (Addresses cluster_options) "secret" 64)
              (NewClusterClient (Addresses cluster_options) "secret" 64))
           (trace (watching (defaulted test_env cluster_options)
                     (NewClusterClient (Addresses cluster_options) "secret" 64)
                     (NewClusterClient (Addresses cluster_options) "secret" 64)))).
  reflexivity.
Defined.

Lemma NewWatcher_clients_by_mode_witness :
  ¬ config_refused cluster_options ∧ (0 < MaxConnections cluster_options < 2 ^ 63)%Z
  ∧ ∃ r t c,
      NewWatcher test_env cluster_options = (r, t)
      ∧ constructed t = [(RoleSub, c); (RolePub, c)]
      ∧ (UseSentinel cluster_options = true →
         c = NewFailoverClient (MasterName cluster_options) (Addresses cluster_options)
               (MaxConnections cluster_options))
      ∧ (UseSentinel cluster_options = false → (1 < length (Addresses cluster_options))%nat →
         c = NewClusterClient (Addresses cluster_options) (Password (Options cluster_options))
               (MaxConnections cluster_options))
      ∧ (UseSentinel cluster_options = false → length (Addresses cluster_options) = 1%nat →
         ∃ a0, Addresses cluster_options = [a0]
               ∧ c = NewClient (mkOptions a0 (Password (Options cluster_options)) 0)).
Proof.
  split; [exact cluster_options_accepted|]. split; [cbn; lia|].
  apply (NewWatcher_clients_by_mode test_env cluster_options);
    [exact cluster_options_accepted | cbn; lia].
Defined.

Lemma watcher_fields_are_stable_witness :
  settled test_watcher
  ∧ options (w (run test_env [CallSetUpdateCallback None; CallClose; CallUpdate] test_watcher))
    = options (w test_watcher)
  ∧ subClient (w (run test_env [CallSetUpdateCallback None; CallClose; CallUpdate]
                    test_watcher))
    = subClient (w test_watcher).
Proof.
  split; [exact test_watcher_settled|].
  destruct (watcher_fields_are_stable test_env
              [CallSetUpdateCallback None; CallClose; CallUpdate] test_watcher
              test_watcher_settled) as (Ho & Hs & _).
  split; [exact Ho|exact Hs].
Defined.

Lemma callbacks_follow_delivery_witness :
  NewWatcher test_env test_options = (Ret (inl test_watcher), trace test_watcher)
  ∧ called (trace (run test_env
                     [Deliver (Text "a"); LoopStep; Deliver (Text "b"); LoopStep; LoopStep;
                      LoopStep] test_watcher))
    `prefix_of`
    received (trace (run test_env
                       [Deliver (Text "a"); LoopStep; Deliver (Text "b"); LoopStep; LoopStep;
                        LoopStep] test_watcher)).
Proof.
  split; [reflexivity|].
  apply (callbacks_follow_delivery test_env test_options test_watcher (trace test_watcher)
           [Deliver (Text "a"); LoopStep; Deliver (Text "b"); LoopStep; LoopStep; LoopStep]).
  reflexivity.
Defined.

Lemma connections_closed_once_witness :
  NewWatcher test_env test_options = (Ret (inl test_watcher), trace test_watcher)
  ∧ filter (λ ev, is_close ev = true)
      (trace (run test_env
                [CallClose; Deliver (Text "Close"); LoopStep; LoopStep; CallClose; LoopStep]
                test_watcher))
    = match loop (run test_env
                    [CallClose; Deliver (Text "Close"); LoopStep; LoopStep; CallClose; LoopStep]
                    test_watcher) with
      | Exited =>
          [EvPubSubClose (subClient (w test_watcher)) (Channel (options (w test_watcher)));
           EvClientClose RolePub (pubClient (w test_watcher));
           EvClientClose RoleSub (subClient (w test_watcher))]
      | _ => []
      end.
Proof.
  split; [reflexivity|].
  apply (connections_closed_once test_env test_options test_watcher (trace test_watcher)
           [CallClose; Deliver (Text "Close"); LoopStep; LoopStep; CallClose; LoopStep]).
  reflexivity.
Defined.

Lemma mutex_is_released_witness :
  NewWatcher test_env test_options = (Ret (inl test_watcher), trace test_watcher)
  ∧ l (w (run test_env [CallClose; CallClose] test_watcher)) = false
  ∧ mutex_after (trace (run test_env [CallClose; CallClose] test_watcher)) = Some false.
Proof.
  split; [reflexivity|].
  pose proof (mutex_is_released test_env test_options test_watcher (trace test_watcher)
                [CallClose; CallClose] eq_refl) as (H1 & H2 & _).
  split; [exact H1|exact H2].
Defined.

Lemma Close_needs_a_message_witness :
  settled test_watcher ∧ fatal test_watcher = None ∧ loop test_watcher = Receiving
  ∧ ch test_watcher = [] ∧ close (w test_watcher) = false
  ∧ run test_env (CallClose :: replicate 1000 LoopStep) test_watcher
    = mkProc (set_close true (w test_watcher)) (sub test_watcher) [] Receiving None
        (trace test_watcher
         ++ [EvLock; EvCloseSignal;
             EvPublish (pubClient (w test_watcher)) (Channel (options (w test_watcher)))
               (Text "Close");
             EvUnlock]).
Proof.
  split; [exact test_watcher_settled|].
  split; [reflexivity|]. split; [reflexivity|]. split; [reflexivity|]. split; [reflexivity|].
  apply (Close_needs_a_message test_env 1000 test_watcher);
    [exact test_watcher_settled | reflexivity..].
Defined.

Lemma message_in_hand_survives_Close_witness :
  settled calling_watcher ∧ fatal calling_watcher = None
  ∧ loop calling_watcher = Calling (Text "update") ∧ close (w calling_watcher) = false
  ∧ callback (w calling_watcher) = Some CallbackNotSet
  ∧ run test_env [CallClose; LoopStep] calling_watcher
    = mkProc (set_close true (w calling_watcher)) (sub calling_watcher) (ch calling_watcher)
        Receiving None
        (trace calling_watcher
         ++ [EvLock; EvCloseSignal;
             EvPublish (pubClient (w calling_watcher)) (Channel (options (w calling_watcher)))
               (Text "Close");
             EvUnlock] ++ call_events CallbackNotSet (Text "update")).
Proof.
  split; [exact calling_watcher_settled|].
  split; [reflexivity|]. split; [reflexivity|]. split; [reflexivity|]. split; [reflexivity|].
  apply (message_in_hand_survives_Close test_env calling_watcher (Text "update")
           CallbackNotSet); [exact calling_watcher_settled | reflexivity..].
Defined.

Lemma SetUpdateCallback_applies_to_message_in_hand_witness :
  settled calling_watcher ∧ fatal calling_watcher = None
  ∧ loop calling_watcher = Calling (Text "update")
  ∧ run test_env [CallSetUpdateCallback (Some (UserFunc 3)); LoopStep] calling_watcher
    = mkProc (set_callback (Some (UserFunc 3)) (w calling_watcher)) (sub calling_watcher)
        (ch calling_watcher) Receiving None
        (trace calling_watcher ++ [EvLock; EvUnlock]
         ++ call_events (UserFunc 3) (Text "update")).
Proof.
  split; [exact calling_watcher_settled|]. split; [reflexivity|]. split; [reflexivity|].
  apply (SetUpdateCallback_applies_to_message_in_hand test_env calling_watcher
           (Text "update") (UserFunc 3)); [exact calling_watcher_settled | reflexivity..].
Defined.

Lemma constructed_callback_gets_every_message_witness :
  NewWatcher test_env test_options = (Ret (inl test_watcher), trace test_watcher)
  ∧ called (trace (run test_env
                     ((Deliver <$> [Text "a"; Text ""])
                      ++ flat_map (λ _, [LoopStep; LoopStep; LoopStep]) [Text "a"; Text ""])
                     test_watcher))
    = [Text "a"; Text ""].
Proof.
  split; [reflexivity|].
  apply (constructed_callback_gets_every_message test_env test_options test_watcher
           (trace test_watcher) [Text "a"; Text ""]).
  reflexivity.
Defined.

Lemma NewWatcher_first_config_error_witness :
  Addresses zeroOptions = []
  ∧ NewWatcher refusing_env zeroOptions
    = (Ret (inr (errors_New "redis: missing redis node address(es)")), []).
Proof.
  split; [reflexivity|].
  destruct (NewWatcher_first_config_error refusing_env zeroOptions) as [H _].
  apply H. left. reflexivity.
Defined.
